(** * Peripheral register emulation: hw/misc/peripheral-register.c

    A shallow embedding of the register object of the peripheral emulation
    layer: the value accessor, the byte-granular read and write callbacks,
    the bitfield validation pass, the compilation of the [follows],
    [cleared_by] and [set_by] relationships into the [auto_bits] table, and
    the reset callback.

    Conventions.
    - A [uint64_t] is a [Z] in [0, 2^64); the wrap-around of [~] and [<<] is
      written out ([not64], [shl64]).  [uint32_t] arithmetic on byte offsets
      is wrapped by [u32].
    - The object tree is reduced to what the callbacks look at: the register
      state owns the ordered list of its children that descend from the
      bitfield type ([object_child_foreach] visits them in that order and
      stops at the first callback that returns non-zero).
    - C behaviour the standard leaves undefined and for which no result can
      be named (an index outside a fixed-size array, [strcmp] on a null
      pointer) is a [Fault].  A shift whose count is outside [0, 63] is
      undefined as well, but machines give it a value; that value is a
      parameter of the model ([shl_ub], [shr_ub]), instantiated below with
      what x86-64 and AArch64 compute. *)

From Stdlib Require Import ZArith List String Bool Lia Btauto.
From stdpp Require Import base list.
From coqutil Require Import Z.bitblast.

Local Open Scope Z_scope.

(** ** Machine integers *)

Definition wrap64 (x : Z) : Z := Z.land x (Z.ones 64).
Definition not64 (x : Z) : Z := wrap64 (Z.lnot x).
Definition u32 (x : Z) : Z := x mod 2 ^ 32.

Definition UINT64_MAX : Z := 0xFFFFFFFFFFFFFFFF.

(** ** Outcomes of the callbacks *)

(** The errors [error_setg] builds; [target] is the [to_find_bifi] pointer
    the message prints, which the code can leave null. *)
Inductive config_error : Type :=
| ErrOverlap (bifi reg : string)
| ErrFollowsMissing (bifi reg : string) (target : option string)
| ErrClearedByMissing (bifi reg : string) (target : option string)
| ErrSetByMissing (bifi reg : string) (target : option string).

Definition show_ptr (s : option string) : string :=
  match s with Some t => t | None => "(null)" end.

Definition newline : string := String (Ascii.ascii_of_nat 10) EmptyString.

(** The text of the message, as the format strings of the source give it. *)
Definition error_message (e : config_error) : string :=
  match e with
  | ErrOverlap b r =>
      "Bitfield " ++ b ++ " of register " ++ r ++ "  overlaps with other bitfield."
        ++ newline
  | ErrFollowsMissing b r t =>
      "Bitfield " ++ b ++ " of register " ++ r ++ " follows missing "
        ++ show_ptr t ++ " bitfield." ++ newline
  | ErrClearedByMissing b r t =>
      "Bitfield " ++ b ++ " of register " ++ r ++ " cleared by missing "
        ++ show_ptr t ++ " bitfield." ++ newline
  | ErrSetByMissing b r t =>
      "Bitfield " ++ b ++ " of register " ++ r ++ " set by missing "
        ++ show_ptr t ++ " bitfield." ++ newline
  end%string.

Inductive fault : Type :=
| OutOfBounds      (* an index outside a fixed-size array *)
| NullDereference. (* strcmp on a null pointer *)

Inductive outcome (A : Type) : Type :=
| Done (a : A)
| ConfigError (e : config_error)
| Fault (f : fault).
Arguments Done {A} a.
Arguments ConfigError {A} e.
Arguments Fault {A} f.

Definition bind {A B : Type} (m : outcome A) (k : A -> outcome B) : outcome B :=
  match m with
  | Done a => k a
  | ConfigError e => ConfigError e
  | Fault f => Fault f
  end.

Notation "'step' x <- m 'in' k" := (bind m (fun x => k))
  (at level 10, x name, m at level 100, k at level 200).

(** ** Data model *)

Inductive auto_bits_type : Type :=
| PERIPHERAL_REGISTER_AUTO_BITS_TYPE_FOLLOWS
| PERIPHERAL_REGISTER_AUTO_BITS_TYPE_CLEARED_BY
| PERIPHERAL_REGISTER_AUTO_BITS_TYPE_SET_BY.

(** One entry of the [auto_bits] array (the struct is declared in the
    header, which is not among the sources; the fields are those the code
    uses, [shift] being a signed [int]).  The array ends with an entry whose
    mask is zero; the list below holds the entries before it, and the null
    pointer is the empty list. *)
Record PeripheralRegisterAutoBits : Type := {
  ab_mask : Z;
  ab_shift : Z;
  ab_type : auto_bits_type
}.

(** The fields of a realized bitfield child that the register reads (the
    struct belongs to the bitfield type, whose files are not among the
    sources).  A null string pointer is [None]. *)
Record RegisterBitfieldState : Type := {
  bf_name : string;
  first_bit : Z;
  last_bit : Z;
  bf_mask : Z;
  bf_shift : Z;
  bf_reset_value : Z;
  bf_is_readable : bool;
  bf_is_writable : bool;
  follows : option string;
  cleared_by : option string;
  set_by : option string
}.

Record PeripheralRegisterState : Type := {
  reg_name : string;
  offset_bytes : Z;
  reset_value : Z;
  readable_bits : Z;
  writable_bits : Z;
  access_flags : Z;
  size_bits : Z;
  is_readable : bool;
  is_writable : bool;
  value : Z;
  auto_bits : list PeripheralRegisterAutoBits;
  bitfields : list RegisterBitfieldState
}.

Definition set_value (st : PeripheralRegisterState) (v : Z) : PeripheralRegisterState :=
  {| reg_name := reg_name st; offset_bytes := offset_bytes st;
     reset_value := reset_value st; readable_bits := readable_bits st;
     writable_bits := writable_bits st; access_flags := access_flags st;
     size_bits := size_bits st; is_readable := is_readable st;
     is_writable := is_writable st; value := v;
     auto_bits := auto_bits st; bitfields := bitfields st |}.

(** The owning peripheral, as far as the register consults it. *)
Record PeripheralState : Type := {
  register_size_bytes : Z;
  is_little_endian : bool
}.

(** ** Public accessor *)

Definition peripheral_register_get_value (state : PeripheralRegisterState) : Z :=
  Z.land (value state) (readable_bits state).

(** ** EndiannessUnion: a [uint64_t] overlapped with [uint8_t b[8]]

    The model fixes the host configuration
    [__BYTE_ORDER__ == __ORDER_LITTLE_ENDIAN__], so [b[k]] is bits
    [8k .. 8k+7] of [ll]. *)

Definition byte_of (ll k : Z) : Z := Z.land (Z.shiftr ll (8 * k)) 255.

Definition union_b (ll : Z) : list Z :=
  map (byte_of ll) [0; 1; 2; 3; 4; 5; 6; 7].

Fixpoint union_ll (b : list Z) : Z :=
  match b with
  | [] => 0
  | x :: r => Z.lor x (Z.shiftl (union_ll r) 8)
  end.

(** [b[ix]] as an rvalue and as an lvalue; [None] outside the eight bytes. *)
Definition b_get (b : list Z) (ix : Z) : option Z :=
  if (0 <=? ix) && (ix <? 8) then b !! Z.to_nat ix else None.

Definition b_set (b : list Z) (ix : Z) (x : Z) : option (list Z) :=
  if (0 <=? ix) && (ix <? 8) then Some (<[Z.to_nat ix := x]> b) else None.

(** The index expressions of the two guest byte orders; [i + offset] is
    computed in [uint32_t]. *)
Definition le_index (offset i : Z) : Z := u32 (i + offset).
Definition be_index (offset i : Z) : Z := u32 (8 - u32 (i + offset)).
Definition host_index (i : Z) : Z := i.

(** [for (i = i0; i < i0 + n; ++i) dst.b[dst_ix i] = src.b[src_ix i];] *)
Fixpoint copy_bytes (dst_ix src_ix : Z -> Z) (src : list Z)
    (n : nat) (i : Z) (dst : list Z) : outcome (list Z) :=
  match n with
  | O => Done dst
  | S n' =>
      match b_get src (src_ix i) with
      | None => Fault OutOfBounds
      | Some x =>
          match b_set dst (dst_ix i) x with
          | None => Fault OutOfBounds
          | Some dst' => copy_bytes dst_ix src_ix src n' (i + 1) dst'
          end
      end
  end.

(** The indices the loop above uses, as (destination, source) pairs. *)
Fixpoint copy_indices (dst_ix src_ix : Z -> Z) (n : nat) (i : Z) : list (Z * Z) :=
  match n with
  | O => []
  | S n' => (dst_ix i, src_ix i) :: copy_indices dst_ix src_ix n' (i + 1)
  end.

(** ** Read callback *)

Definition peripheral_register_read_callback (state : PeripheralRegisterState)
    (periph : PeripheralState) (addr offset size : Z) : outcome Z :=
  let tmp := union_b (Z.land (value state) (readable_bits state)) in
  let result := union_b 0 in
  step result' <-
    (if is_little_endian periph
     then copy_bytes host_index (le_index offset) tmp (Z.to_nat size) 0 result
     else copy_bytes host_index (be_index offset) tmp (Z.to_nat size) 0 result) in
  Done (union_ll result').

(** ** Write callback *)

Section Callbacks.

(** The value a machine gives [x << n] and [x >> n] on a [uint64_t] when
    the [int] count [n] is outside [0, 63], which C leaves undefined. *)
Variables shl_ub shr_ub : Z -> Z -> Z.

Definition shl64 (x n : Z) : Z :=
  if (0 <=? n) && (n <? 64) then wrap64 (Z.shiftl x n) else wrap64 (shl_ub x n).

Definition shr64 (x n : Z) : Z :=
  if (0 <=? n) && (n <? 64) then Z.shiftr x n else wrap64 (shr_ub x n).

(** The body of the loop over [auto_bits] for one entry. *)
Definition apply_auto_bits (a : PeripheralRegisterAutoBits) (tmp : Z) : Z :=
  let mask := ab_mask a in
  let shift := ab_shift a in
  match ab_type a with
  | PERIPHERAL_REGISTER_AUTO_BITS_TYPE_FOLLOWS =>
      (* Clear the linked bits and copy those from the referred bits. *)
      if 0 <? shift then
        let tmp := Z.land tmp (not64 (shl64 mask shift)) in
        Z.lor tmp (shl64 (Z.land tmp mask) shift)
      else if shift <? 0 then
        let tmp := Z.land tmp (not64 (shr64 mask shift)) in
        Z.lor tmp (shr64 (Z.land tmp mask) shift)
      else tmp
  | PERIPHERAL_REGISTER_AUTO_BITS_TYPE_CLEARED_BY =>
      (* If the referred bits are set, clear the linked bits. *)
      if 0 <? shift then
        Z.land tmp (not64 (shl64 (Z.land tmp mask) shift))
      else if shift <? 0 then
        Z.land tmp (not64 (shr64 (Z.land tmp mask) shift))
      else tmp
  | PERIPHERAL_REGISTER_AUTO_BITS_TYPE_SET_BY =>
      (* If the referred bits are set, set the linked bits. *)
      if 0 <? shift then
        Z.lor tmp (shl64 (Z.land tmp mask) shift)
      else if shift <? 0 then
        Z.lor tmp (shr64 (Z.land tmp mask) shift)
      else tmp
  end.

(** [for (auto_bits = state->auto_bits; auto_bits && auto_bits->mask;
    auto_bits++)]: the loop stops at the first entry whose mask is zero. *)
Fixpoint run_auto_bits (l : list PeripheralRegisterAutoBits) (tmp : Z) : Z :=
  match l with
  | [] => tmp
  | a :: r => if ab_mask a =? 0 then tmp else run_auto_bits r (apply_auto_bits a tmp)
  end.

(** The value before propagation: the bits outside [writable_bits] keep the
    stored value, the others take the merged bytes. *)
Definition merge_writable (state : PeripheralRegisterState) (new_value : Z) : Z :=
  Z.lor (Z.land (value state) (not64 (writable_bits state)))
        (Z.land new_value (writable_bits state)).

(** The first half of the write callback: the incoming bytes overwrite
    [size] bytes of a copy of the stored value, and the copy is restricted
    to the writable bits.  The result is [tmp] as the rule loop receives it. *)
Definition merged_value (state : PeripheralRegisterState)
    (periph : PeripheralState) (offset size in_val : Z) : outcome Z :=
  let in_value := union_b in_val in
  let new_value := union_b (value state) in
  step new_value' <-
    (if is_little_endian periph
     then copy_bytes (le_index offset) host_index in_value (Z.to_nat size) 0 new_value
     else copy_bytes (be_index offset) host_index in_value (Z.to_nat size) 0 new_value) in
  Done (merge_writable state (union_ll new_value')).

Definition peripheral_register_write_callback (state : PeripheralRegisterState)
    (periph : PeripheralState) (addr offset size in_val : Z)
    : outcome PeripheralRegisterState :=
  step tmp <- merged_value state periph offset size in_val in
  Done (set_value state (run_auto_bits (auto_bits state) tmp)).

(** ** Reset callback *)

Definition peripheral_register_reset_callback (state : PeripheralRegisterState)
    : PeripheralRegisterState :=
  set_value state (reset_value state).

(** ** Realize: validation of the bitfields *)

(** [object_child_foreach]: the callback runs on each child in turn, with
    the same opaque pointer; the first non-zero return ends the walk. *)
Fixpoint object_child_foreach {T : Type} (children : list RegisterBitfieldState)
    (fn : RegisterBitfieldState -> T -> outcome T) (opaque : T) : outcome T :=
  match children with
  | [] => Done opaque
  | obj :: rest => step t <- fn obj opaque in object_child_foreach rest fn t
  end.

Record PeripheralRegisterValidateTmp : Type := {
  v_mask : Z;
  v_readable_bits : Z;
  v_writable_bits : Z;
  v_reset_value : Z
}.

(** [g_malloc0] *)
Definition validate_tmp0 : PeripheralRegisterValidateTmp :=
  {| v_mask := 0; v_readable_bits := 0; v_writable_bits := 0; v_reset_value := 0 |}.

Definition peripheral_register_validate_bitfields (reg : PeripheralRegisterState)
    (bifi : RegisterBitfieldState) (validate_tmp : PeripheralRegisterValidateTmp)
    : outcome PeripheralRegisterValidateTmp :=
  if negb (Z.land (bf_mask bifi) (v_mask validate_tmp) =? 0) then
    ConfigError (ErrOverlap (bf_name bifi) (reg_name reg))
  else
    Done {| (* Collect more bits in the mask. *)
            v_mask := Z.lor (v_mask validate_tmp) (bf_mask bifi);
            (* Collect readable bits. *)
            v_readable_bits :=
              if bf_is_readable bifi
              then Z.lor (v_readable_bits validate_tmp) (bf_mask bifi)
              else v_readable_bits validate_tmp;
            (* Collect writable bits. *)
            v_writable_bits :=
              if bf_is_writable bifi
              then Z.lor (v_writable_bits validate_tmp) (bf_mask bifi)
              else v_writable_bits validate_tmp;
            v_reset_value :=
              Z.lor (Z.land (v_reset_value validate_tmp) (not64 (bf_mask bifi)))
                    (Z.land (shl64 (bf_reset_value bifi) (bf_shift bifi))
                            (bf_mask bifi)) |}.

(** ** Realize: compilation of the relationships *)

Record PeripheralRegisterAutoTmp : Type := {
  left_shift_follows_masks : list Z;
  right_shift_follows_masks : list Z;
  left_shift_cleared_by_masks : list Z;
  right_shift_cleared_by_masks : list Z;
  left_shift_set_by_masks : list Z;
  right_shift_set_by_masks : list Z
}.

(** [g_malloc0]: six arrays of 64 zero masks. *)
Definition auto_tmp0 : PeripheralRegisterAutoTmp :=
  let z := replicate 64 0 in
  {| left_shift_follows_masks := z; right_shift_follows_masks := z;
     left_shift_cleared_by_masks := z; right_shift_cleared_by_masks := z;
     left_shift_set_by_masks := z; right_shift_set_by_masks := z |}.

(** [arr[ix] |= m] on an array of 64 masks. *)
Definition or_at (arr : list Z) (ix m : Z) : outcome (list Z) :=
  if (0 <=? ix) && (ix <? 64)
  then Done (alter (fun old => Z.lor old m) (Z.to_nat ix) arr)
  else Fault OutOfBounds.

(** The callback of the search: [strcmp (to_find_bifi, bifi->name) == 0]. *)
Definition peripheral_register_find_bifi (to_find_bifi : option string)
    (bifi : RegisterBitfieldState) : outcome bool :=
  match to_find_bifi with
  | None => Fault NullDereference
  | Some s => Done (String.eqb s (bf_name bifi))
  end.

(** The walk over the children with that callback: [found_bifi] at its end. *)
Fixpoint find_among_children (to_find_bifi : option string)
    (children : list RegisterBitfieldState) : outcome (option RegisterBitfieldState) :=
  match children with
  | [] => Done None
  | bifi :: rest =>
      step hit <- peripheral_register_find_bifi to_find_bifi bifi in
      if hit then Done (Some bifi) else find_among_children to_find_bifi rest
  end.

(** The part the three branches share once the target is found: the signed
    distance selects the left or the right array; distance zero adds
    nothing. *)
Definition accumulate (bifi found : RegisterBitfieldState)
    (left right : list Z) : outcome (list Z * list Z) :=
  (* Positive values means shift left, negative shift right. *)
  let delta_shift := first_bit bifi - first_bit found in
  if 0 <? delta_shift then
    step l <- or_at left delta_shift (bf_mask found) in Done (l, right)
  else if delta_shift <? 0 then
    step r <- or_at right (- delta_shift) (bf_mask found) in Done (left, r)
  else Done (left, right).

Definition peripheral_register_create_auto_array (reg : PeripheralRegisterState)
    (bifi : RegisterBitfieldState) (auto_tmp : PeripheralRegisterAutoTmp)
    : outcome PeripheralRegisterAutoTmp :=
  match follows bifi, cleared_by bifi, set_by bifi with
  | Some _, _, _ =>
      let to_find_bifi := follows bifi in
      step found_bifi <- find_among_children to_find_bifi (bitfields reg) in
      match found_bifi with
      | None => ConfigError (ErrFollowsMissing (bf_name bifi) (reg_name reg) to_find_bifi)
      | Some found =>
          step lr <- accumulate bifi found (left_shift_follows_masks auto_tmp)
                                (right_shift_follows_masks auto_tmp) in
          Done {| left_shift_follows_masks := fst lr;
                  right_shift_follows_masks := snd lr;
                  left_shift_cleared_by_masks := left_shift_cleared_by_masks auto_tmp;
                  right_shift_cleared_by_masks := right_shift_cleared_by_masks auto_tmp;
                  left_shift_set_by_masks := left_shift_set_by_masks auto_tmp;
                  right_shift_set_by_masks := right_shift_set_by_masks auto_tmp |}
      end
  | None, Some _, _ =>
      let to_find_bifi := cleared_by bifi in
      step found_bifi <- find_among_children to_find_bifi (bitfields reg) in
      match found_bifi with
      | None => ConfigError (ErrClearedByMissing (bf_name bifi) (reg_name reg) to_find_bifi)
      | Some found =>
          step lr <- accumulate bifi found (left_shift_cleared_by_masks auto_tmp)
                                (right_shift_cleared_by_masks auto_tmp) in
          Done {| left_shift_follows_masks := left_shift_follows_masks auto_tmp;
                  right_shift_follows_masks := right_shift_follows_masks auto_tmp;
                  left_shift_cleared_by_masks := fst lr;
                  right_shift_cleared_by_masks := snd lr;
                  left_shift_set_by_masks := left_shift_set_by_masks auto_tmp;
                  right_shift_set_by_masks := right_shift_set_by_masks auto_tmp |}
      end
  | None, None, Some _ =>
      (* Find the .set_by bitfield: the source takes the name from
         [bifi->cleared_by]. *)
      let to_find_bifi := cleared_by bifi in
      step found_bifi <- find_among_children to_find_bifi (bitfields reg) in
      match found_bifi with
      | None => ConfigError (ErrSetByMissing (bf_name bifi) (reg_name reg) to_find_bifi)
      | Some found =>
          step lr <- accumulate bifi found (left_shift_set_by_masks auto_tmp)
                                (right_shift_set_by_masks auto_tmp) in
          Done {| left_shift_follows_masks := left_shift_follows_masks auto_tmp;
                  right_shift_follows_masks := right_shift_follows_masks auto_tmp;
                  left_shift_cleared_by_masks := left_shift_cleared_by_masks auto_tmp;
                  right_shift_cleared_by_masks := right_shift_cleared_by_masks auto_tmp;
                  left_shift_set_by_masks := fst lr;
                  right_shift_set_by_masks := snd lr |}
      end
  | None, None, None => Done auto_tmp
  end.

(** The entries the scan of the six arrays emits at index [i], in the order
    of the source; an entry is emitted only for a non-zero mask. *)
Definition entry (arr : list Z) (i : nat) (shift : Z) (type : auto_bits_type)
    : list PeripheralRegisterAutoBits :=
  match arr !! i with
  | Some m => if m =? 0 then [] else [{| ab_mask := m; ab_shift := shift; ab_type := type |}]
  | None => []
  end.

Definition entries_at (auto_tmp : PeripheralRegisterAutoTmp) (i : nat)
    : list PeripheralRegisterAutoBits :=
  entry (left_shift_follows_masks auto_tmp) i (Z.of_nat i)
        PERIPHERAL_REGISTER_AUTO_BITS_TYPE_FOLLOWS
  ++ entry (right_shift_follows_masks auto_tmp) i (- Z.of_nat i)
        PERIPHERAL_REGISTER_AUTO_BITS_TYPE_FOLLOWS
  ++ entry (left_shift_cleared_by_masks auto_tmp) i (Z.of_nat i)
        PERIPHERAL_REGISTER_AUTO_BITS_TYPE_CLEARED_BY
  ++ entry (right_shift_cleared_by_masks auto_tmp) i (- Z.of_nat i)
        PERIPHERAL_REGISTER_AUTO_BITS_TYPE_CLEARED_BY
  ++ entry (left_shift_set_by_masks auto_tmp) i (Z.of_nat i)
        PERIPHERAL_REGISTER_AUTO_BITS_TYPE_SET_BY
  ++ entry (right_shift_set_by_masks auto_tmp) i (- Z.of_nat i)
        PERIPHERAL_REGISTER_AUTO_BITS_TYPE_SET_BY.

(** [for (i = 0; i < 64; ++i)]: the array built when [count] is not zero;
    with no entry the pointer stays null, the empty list. *)
Definition build_auto_bits (auto_tmp : PeripheralRegisterAutoTmp)
    : list PeripheralRegisterAutoBits :=
  flat_map (entries_at auto_tmp) (seq 0 64).

(** ** Realize callback *)

(** How realize ends: the register is realized; or an error was propagated
    to [errp], the state being left as it was at that point; or the walk
    hit a fault. *)
Inductive realized : Type :=
| Realized (state : PeripheralRegisterState)
| Rejected (e : config_error) (state : PeripheralRegisterState)
| Crashed (f : fault).

(** The macro of the absent header, taken as a parameter. *)
Variable PERIPHERAL_REGISTER_DEFAULT_SIZE_BYTES : Z.

Definition realize_size_bits (state : PeripheralRegisterState)
    (parent : PeripheralState) : Z :=
  if size_bits state =? 0 then
    if negb (register_size_bytes parent =? 0)
    then u32 (register_size_bytes parent * 8)
    else PERIPHERAL_REGISTER_DEFAULT_SIZE_BYTES
  else size_bits state.

(** The masks and the reset value after the validation walk succeeded. *)
Definition realize_masks (state : PeripheralRegisterState) (parent : PeripheralState)
    (validate_tmp : PeripheralRegisterValidateTmp) : PeripheralRegisterState :=
  let has_bitfields := negb (v_mask validate_tmp =? 0) in
  let bitfields_mask := v_mask validate_tmp in
  let bitfields_readable_bits := v_readable_bits validate_tmp in
  let bitfields_writable_bits := v_writable_bits validate_tmp in
  let bitfields_reset_value := v_reset_value validate_tmp in
  let readable :=
    if has_bitfields then Z.lor (readable_bits state) bitfields_readable_bits
    else if (readable_bits state =? 0) && is_readable state
         then UINT64_MAX (* Default all bits readable. *)
         else readable_bits state in
  let writable :=
    if has_bitfields then Z.lor (writable_bits state) bitfields_writable_bits
    else if (writable_bits state =? 0) && is_writable state
         then UINT64_MAX (* Default all bits writable. *)
         else writable_bits state in
  (* Clear readable bits if entire register is non-readable. *)
  let readable := if negb (is_readable state) then 0 else readable in
  (* Clear writable bits if entire register is non-writable. *)
  let writable := if negb (is_writable state) then 0 else writable in
  let reset :=
    Z.lor (Z.land (reset_value state)
                  (not64 (Z.land bitfields_reset_value bitfields_mask)))
          (Z.land bitfields_reset_value bitfields_mask) in
  {| reg_name := reg_name state; offset_bytes := offset_bytes state;
     reset_value := reset; readable_bits := readable; writable_bits := writable;
     access_flags := access_flags state;
     size_bits := realize_size_bits state parent;
     is_readable := is_readable state; is_writable := is_writable state;
     value := value state;
     auto_bits := []; (* state->auto_bits = NULL *)
     bitfields := bitfields state |}.

Definition set_auto_bits (st : PeripheralRegisterState)
    (l : list PeripheralRegisterAutoBits) : PeripheralRegisterState :=
  {| reg_name := reg_name st; offset_bytes := offset_bytes st;
     reset_value := reset_value st; readable_bits := readable_bits st;
     writable_bits := writable_bits st; access_flags := access_flags st;
     size_bits := size_bits st; is_readable := is_readable st;
     is_writable := is_writable st; value := value st;
     auto_bits := l; bitfields := bitfields st |}.

Definition set_size_bits (st : PeripheralRegisterState) (n : Z)
    : PeripheralRegisterState :=
  {| reg_name := reg_name st; offset_bytes := offset_bytes st;
     reset_value := reset_value st; readable_bits := readable_bits st;
     writable_bits := writable_bits st; access_flags := access_flags st;
     size_bits := n; is_readable := is_readable st;
     is_writable := is_writable st; value := value st;
     auto_bits := auto_bits st; bitfields := bitfields st |}.

(** The parent's realize is taken to succeed. *)
Definition peripheral_register_realize_callback (state : PeripheralRegisterState)
    (parent : PeripheralState) : realized :=
  (* Scan bitfields and validate by checking if masks do not overlap. *)
  match object_child_foreach (bitfields state)
          (peripheral_register_validate_bitfields state) validate_tmp0 with
  | Fault f => Crashed f
  | ConfigError e => Rejected e (set_size_bits state (realize_size_bits state parent))
  | Done validate_tmp =>
      let state := realize_masks state parent validate_tmp in
      (* Scan children bitfields to identify those that follow other
         bitfields. *)
      match object_child_foreach (bitfields state)
              (peripheral_register_create_auto_array state) auto_tmp0 with
      | Fault f => Crashed f
      | ConfigError e => Rejected e state
      | Done auto_tmp => Realized (set_auto_bits state (build_auto_bits auto_tmp))
      end
  end.

End Callbacks.

(** The shifter of x86-64 and of AArch64 takes the count of a 64-bit shift
    modulo 64. *)
Definition hw_shl (x n : Z) : Z := Z.shiftl x (n mod 64).
Definition hw_shr (x n : Z) : Z := Z.shiftr x (n mod 64).

(** The index pairs of the byte loops of the two callbacks. *)
Definition read_indices (periph : PeripheralState) (offset size : Z) : list (Z * Z) :=
  if is_little_endian periph
  then copy_indices host_index (le_index offset) (Z.to_nat size) 0
  else copy_indices host_index (be_index offset) (Z.to_nat size) 0.

Definition write_indices (periph : PeripheralState) (offset size : Z) : list (Z * Z) :=
  if is_little_endian periph
  then copy_indices (le_index offset) host_index (Z.to_nat size) 0
  else copy_indices (be_index offset) host_index (Z.to_nat size) 0.

Definition index_ok (ix : Z) : bool := (0 <=? ix) && (ix <? 8).

(** ** Bitfield children and example registers *)

(** Modelled from the spec: the realize of the bitfield type lives in
    register-bitfield.c, which is not among the sources.  The spec derives
    [mask] as the set of bits in [[firstBit, lastBit]] and shifts the
    field-local reset value by [firstBit]. *)
Definition register_bitfield (name : string) (first last reset : Z)
    (readable writable : bool) (follows cleared_by set_by : option string)
    : RegisterBitfieldState :=
  {| bf_name := name; first_bit := first; last_bit := last;
     bf_mask := Z.shiftl (Z.ones (last - first + 1)) first;
     bf_shift := first; bf_reset_value := reset;
     bf_is_readable := readable; bf_is_writable := writable;
     follows := follows; cleared_by := cleared_by; set_by := set_by |}.

(** A register as [peripheral_register_new] leaves it before realize: the
    defaults of the instance init, then the name, the reset value, the width,
    the two capability flags and the children.  The access flags, which no
    callback of this file reads, are left at 0. *)
Definition new_register (name : string) (reset size : Z) (readable writable : bool)
    (children : list RegisterBitfieldState) : PeripheralRegisterState :=
  {| reg_name := name; offset_bytes := 0; reset_value := reset;
     readable_bits := 0; writable_bits := 0; access_flags := 0;
     size_bits := size; is_readable := readable; is_writable := writable;
     value := 0; auto_bits := []; bitfields := children |}.

Definition le_periph : PeripheralState :=
  {| register_size_bytes := 4; is_little_endian := true |}.
Definition be_periph : PeripheralState :=
  {| register_size_bytes := 4; is_little_endian := false |}.

(** Width 8, A at bits [4,7], B at bits [0,3] following A. *)
Definition follows_down_reg : PeripheralRegisterState :=
  new_register "R" 0 8 true true
    [ register_bitfield "A" 4 7 0 true true None None None;
      register_bitfield "B" 0 3 0 true true (Some "A"%string) None None ].

(** Width 8, A at bits [0,3], B at bits [4,7] following A. *)
Definition follows_up_reg : PeripheralRegisterState :=
  new_register "R" 0 8 true true
    [ register_bitfield "A" 0 3 0 true true None None None;
      register_bitfield "B" 4 7 0 true true (Some "A"%string) None None ].

(** A register marked non-writable, A at bits [0,3] with reset value 10,
    B at bits [4,7] following A. *)
Definition readonly_follows_reg : PeripheralRegisterState :=
  new_register "R" 0 8 true false
    [ register_bitfield "A" 0 3 10 true true None None None;
      register_bitfield "B" 4 7 0 true true (Some "A"%string) None None ].

(** One bitfield at bits [0,3] that names itself in [cleared_by]. *)
Definition cleared_by_zero_reg : PeripheralRegisterState :=
  new_register "R" 0 8 true true
    [ register_bitfield "C" 0 3 0 true true None (Some "C"%string) None ].

(** C at bits [0,3] declaring [cleared_by] D, and D at bits [0,3] too: two
    siblings at bit distance zero. *)
Definition distance_zero_pair_reg : PeripheralRegisterState :=
  new_register "R" 0 8 true true
    [ register_bitfield "C" 0 3 0 true true None (Some "D"%string) None;
      register_bitfield "D" 0 3 0 true true None None None ].

(** S at bit 0, T at bit 1 declaring [set_by] S. *)
Definition set_by_reg : PeripheralRegisterState :=
  new_register "R" 0 8 true true
    [ register_bitfield "S" 0 0 0 true true None None None;
      register_bitfield "T" 1 1 0 true true None None (Some "S"%string) ].

(** T at bit 1 declaring [set_by] a name no child has. *)
Definition set_by_missing_reg : PeripheralRegisterState :=
  new_register "R" 0 8 true true
    [ register_bitfield "T" 1 1 0 true true None None (Some "nowhere"%string) ].

(** The register declares reset value 0xFF; its bitfield A at bits [0,3]
    declares reset value 0. *)
Definition reset_overlay_reg : PeripheralRegisterState :=
  new_register "R" 0xFF 8 true true
    [ register_bitfield "A" 0 3 0 true true None None None ].

(** A 32-bit register without bitfields, as realize and reset leave it when
    the reset value is 0x11223344: all 64 bits readable and writable. *)
Definition word_reg : PeripheralRegisterState :=
  {| reg_name := "W"; offset_bytes := 0; reset_value := 0x11223344;
     readable_bits := UINT64_MAX; writable_bits := UINT64_MAX;
     access_flags := 0; size_bits := 32; is_readable := true;
     is_writable := true; value := 0x11223344; auto_bits := [];
     bitfields := [] |}.

(** The callbacks on a machine whose shifter takes the count modulo 64; the
    default width is the one the spec names. *)
Definition hw_write := peripheral_register_write_callback hw_shl hw_shr.
Definition hw_realize := peripheral_register_realize_callback hw_shl 32.

(** The state of a register that realize accepted (the given state
    otherwise). *)
Definition realized_state (r : realized) (otherwise : PeripheralRegisterState)
    : PeripheralRegisterState :=
  match r with Realized st => st | _ => otherwise end.

(** [readonly_follows_reg] after realize and reset. *)
Definition readonly_follows_live : PeripheralRegisterState :=
  peripheral_register_reset_callback
    (realized_state (hw_realize readonly_follows_reg le_periph) readonly_follows_reg).

(** [follows_up_reg] after realize. *)
Definition follows_up_live : PeripheralRegisterState :=
  realized_state (hw_realize follows_up_reg le_periph) follows_up_reg.

(** [follows_down_reg] after realize. *)
Definition follows_down_live : PeripheralRegisterState :=
  realized_state (hw_realize follows_down_reg le_periph) follows_down_reg.

(** A at bits [0,3], B at bits [4,7], C at bits [6,9]: C overlaps B. *)
Definition overlap_reg : PeripheralRegisterState :=
  new_register "R" 0 16 true true
    [ register_bitfield "A" 0 3 0 true true None None None;
      register_bitfield "B" 4 7 0 true true None None None;
      register_bitfield "C" 6 9 0 true true None None None ].

(** B at bits [0,3] declaring [follows], and D at bits [4,7] declaring
    [cleared_by], a name no child has. *)
Definition follows_missing_reg : PeripheralRegisterState :=
  new_register "R" 0 8 true true
    [ register_bitfield "B" 0 3 0 true true (Some "nowhere"%string) None None ].
Definition cleared_by_missing_reg : PeripheralRegisterState :=
  new_register "R" 0 8 true true
    [ register_bitfield "D" 4 7 0 true true None (Some "nowhere"%string) None ].

(** Pairwise disjointness of the masks of a list of bitfields. *)
Fixpoint pairwise_disjoint (l : list RegisterBitfieldState) : Prop :=
  match l with
  | [] => True
  | b :: r => Forall (fun a => Z.land (bf_mask a) (bf_mask b) = 0) r /\ pairwise_disjoint r
  end.

(** The union of the masks of a list of bitfields. *)
Definition union_mask (l : list RegisterBitfieldState) : Z :=
  fold_left (fun acc b => Z.lor acc (bf_mask b)) l 0.

(** A child that declares no relationship other than [cleared_by], and
    whose [cleared_by] target, when it declares one, is found among the
    children at bit distance zero. *)
Definition cleared_by_at_distance_zero (children : list RegisterBitfieldState)
    (bifi : RegisterBitfieldState) : Prop :=
  follows bifi = None /\ set_by bifi = None /\
  match cleared_by bifi with
  | None => True
  | Some d =>
      exists found, find_among_children (Some d) children = Done (Some found)
                    /\ first_bit bifi = first_bit found
  end.

(** Every index of a list of (destination, source) pairs is inside the
    eight bytes of the union. *)
Definition indices_ok (l : list (Z * Z)) : bool :=
  forallb (fun p => index_ok (fst p) && index_ok (snd p)) l.

(** An access the byte loops keep inside the eight bytes: nothing is copied
    when [size] is zero; otherwise the little-endian indices [i + offset]
    end at [offset + size - 1], and the big-endian indices
    [8 - (i + offset)] start at [8 - offset] and end at
    [9 - (offset + size)]. *)
Definition access_in_bounds (periph : PeripheralState) (offset size : Z) : Prop :=
  0 <= offset /\ 0 <= size /\
  (size = 0 \/ if is_little_endian periph
              then offset + size <= 8
              else 1 <= offset /\ offset + size <= 9).

(** The index expression the guest byte order selects. *)
Definition guest_index (periph : PeripheralState) (offset : Z) : Z -> Z :=
  if is_little_endian periph then le_index offset else be_index offset.

(** Slot 0 of each of the six arrays holds no mask. *)
Definition zero_slots (t : PeripheralRegisterAutoTmp) : Prop :=
  left_shift_follows_masks t !! 0%nat = Some 0
  /\ right_shift_follows_masks t !! 0%nat = Some 0
  /\ left_shift_cleared_by_masks t !! 0%nat = Some 0
  /\ right_shift_cleared_by_masks t !! 0%nat = Some 0
  /\ left_shift_set_by_masks t !! 0%nat = Some 0
  /\ right_shift_set_by_masks t !! 0%nat = Some 0.

(** The accumulators of the validation walk hold no bit outside the mask
    collected so far. *)
Definition within_mask (t : PeripheralRegisterValidateTmp) : Prop :=
  Z.ldiff (v_readable_bits t) (v_mask t) = 0
  /\ Z.ldiff (v_writable_bits t) (v_mask t) = 0
  /\ Z.ldiff (v_reset_value t) (v_mask t) = 0.

(** ** Construction from the definition tables *)

(** One entry of the bitfield table of a register definition.  The table
    ends at the entry whose name is null, so it is a list; a null or empty
    relationship string is told apart from a name below. *)
Record RegisterBitfieldInfo : Type := {
  bi_name : string;
  bi_first_bit : Z;
  bi_last_bit : Z;
  bi_reset_value : Z;
  bi_rw_mode : Z;
  bi_follows : option string;
  bi_cleared_by : option string;
  bi_set_by : option string
}.

(** The register definition; a null [bitfields] pointer is [None]. *)
Record PeripheralRegisterInfo : Type := {
  info_offset_bytes : Z;
  info_reset_value : Z;
  info_readable_bits : Z;
  info_access_flags : Z;
  info_size_bits : Z;
  info_rw_mode : Z;
  info_bitfields : option (list RegisterBitfieldInfo)
}.

(** The properties [peripheral_register_new] sets on a bitfield child before
    it realizes it; [None] is a property left at the default of the bitfield
    type. *)
Record RegisterBitfieldProperties : Type := {
  p_name : string;
  p_first_bit : Z;
  p_last_bit : option Z;
  p_reset_value : option Z;
  p_is_readable : option bool;
  p_is_writable : option bool;
  p_register_size_bits : Z;
  p_follows : option string;
  p_cleared_by : option string;
  p_set_by : option string
}.

(** The callbacks a register class holds. *)
Definition read_fn : Type :=
  PeripheralRegisterState -> PeripheralState -> Z -> Z -> Z -> outcome Z.
Definition write_fn : Type :=
  PeripheralRegisterState -> PeripheralState -> Z -> Z -> Z -> Z ->
  outcome PeripheralRegisterState.

Record PeripheralRegisterClass : Type := {
  pr_read : read_fn;
  pr_write : write_fn
}.

(** The definition of a derived register type. *)
Record PeripheralRegisterTypeInfo : Type := {
  ti_type_name : string;
  ti_desc : string;
  ti_offset_bytes : Z;
  ti_reset_value : Z;
  ti_readable_bits : Z;
  ti_writable_bits : Z;
  ti_access_flags : Z;
  ti_rw_mode : Z;
  ti_size_bits : Z;
  ti_bitfields : option (list RegisterBitfieldInfo);
  ti_read : option read_fn;
  ti_write : option write_fn
}.

(** The class of a derived type: the slots of the register class it
    extends, the captured parent callbacks, and the copy of the definition. *)
Record PeripheralRegisterDerivedClass : Type := {
  prd_parent_class : PeripheralRegisterClass;
  prd_parent_read : option read_fn;
  prd_parent_write : option write_fn;
  prd_name : string;
  prd_desc : string;
  prd_offset_bytes : Z;
  prd_reset_value : Z;
  prd_readable_bits : Z;
  prd_writable_bits : Z;
  prd_access_flags : Z;
  prd_rw_mode : Z;
  prd_size_bits : Z;
  prd_bitfields : option (list RegisterBitfieldInfo)
}.

Section Construction.

(** Macros of the absent headers, and the parameters of the callbacks. *)
Variables REGISTER_RW_MODE_READ REGISTER_RW_MODE_WRITE : Z.
Variable PERIPHERAL_REGISTER_DEFAULT_ACCESS_FLAGS : Z.
Variables shl_ub shr_ub : Z -> Z -> Z.

(** The bitfield type, which is not among the sources: what creating a
    child, setting the properties below and realizing it leaves. *)
Variable register_bitfield_realize : RegisterBitfieldProperties -> RegisterBitfieldState.

(** The state the instance init leaves (the null name is the empty
    string). *)
Definition peripheral_register_instance_init_callback : PeripheralRegisterState :=
  {| reg_name := ""; offset_bytes := 0x00000000;
     reset_value := 0x0000000000000000;
     readable_bits := 0x0000000000000000;
     writable_bits := 0x0000000000000000;
     access_flags := PERIPHERAL_REGISTER_DEFAULT_ACCESS_FLAGS;
     (* Intentional 0. Default set again in realize(), possibly from parent. *)
     size_bits := 0;
     is_readable := true; is_writable := true;
     value := 0x00000000; auto_bits := []; bitfields := [] |}.

(** [s != NULL && strlen (s) > 0] *)
Definition non_empty (s : option string) : option string :=
  match s with
  | Some EmptyString => None
  | Some t => Some t
  | None => None
  end.

(** The two capability flags a non-zero [rw_mode] selects. *)
Definition rw_mode_readable (rw_mode : Z) : bool :=
  negb (Z.land rw_mode REGISTER_RW_MODE_READ =? 0).
Definition rw_mode_writable (rw_mode : Z) : bool :=
  negb (Z.land rw_mode REGISTER_RW_MODE_WRITE =? 0).

(** The body of the loop over the bitfield table for one entry; [None] is a
    failed [assert]. *)
Definition bitfield_properties (size_bits : Z) (bifi_info : RegisterBitfieldInfo)
    : option RegisterBitfieldProperties :=
  if negb (bi_first_bit bifi_info <? 32) then None
  else if negb (bi_last_bit bifi_info <? 32) then None
  else
    Some {| p_name := bi_name bifi_info;
            p_first_bit := bi_first_bit bifi_info;
            p_last_bit :=
              if negb (bi_last_bit bifi_info =? 0)
              then Some (bi_last_bit bifi_info) else None;
            p_reset_value :=
              if negb (bi_reset_value bifi_info =? 0)
              then Some (bi_reset_value bifi_info) else None;
            p_is_readable :=
              if negb (bi_rw_mode bifi_info =? 0)
              then Some (rw_mode_readable (bi_rw_mode bifi_info)) else None;
            p_is_writable :=
              if negb (bi_rw_mode bifi_info =? 0)
              then Some (rw_mode_writable (bi_rw_mode bifi_info)) else None;
            p_register_size_bits := size_bits;
            p_follows := non_empty (bi_follows bifi_info);
            p_cleared_by := non_empty (bi_cleared_by bifi_info);
            p_set_by := non_empty (bi_set_by bifi_info) |}.

Fixpoint new_bitfields (size_bits : Z) (table : list RegisterBitfieldInfo)
    : option (list RegisterBitfieldState) :=
  match table with
  | [] => Some []
  | bifi_info :: rest =>
      match bitfield_properties size_bits bifi_info with
      | None => None
      | Some props =>
          match new_bitfields size_bits rest with
          | None => None
          | Some children => Some (register_bitfield_realize props :: children)
          end
      end
  end.

(** [peripheral_register_new]; [None] is a failed [assert]. *)
Definition peripheral_register_new (parent : PeripheralState) (node_name : string)
    (info : PeripheralRegisterInfo) : option PeripheralRegisterState :=
  let reg := peripheral_register_instance_init_callback in
  let size_bits :=
    if negb (info_size_bits info =? 0) then info_size_bits info
    else u32 (register_size_bytes parent * 8) in
  match (match info_bitfields info with
         | None => Some []
         | Some table => new_bitfields size_bits table
         end) with
  | None => None
  | Some children =>
      Some {| reg_name := node_name;
              offset_bytes := info_offset_bytes info;
              reset_value :=
                if negb (info_reset_value info =? 0)
                then info_reset_value info else reset_value reg;
              readable_bits :=
                if negb (info_readable_bits info =? 0)
                then info_readable_bits info else readable_bits reg;
              writable_bits := writable_bits reg;
              access_flags :=
                if negb (info_access_flags info =? 0)
                then info_access_flags info else access_flags reg;
              size_bits := size_bits;
              is_readable :=
                if negb (info_rw_mode info =? 0)
                then rw_mode_readable (info_rw_mode info) else true;
              is_writable :=
                if negb (info_rw_mode info =? 0)
                then rw_mode_writable (info_rw_mode info) else true;
              value := value reg;
              auto_bits := auto_bits reg;
              bitfields := children |}
  end.

(** The class init of the register type installs the two callbacks. *)
Definition peripheral_register_class_init : PeripheralRegisterClass :=
  {| pr_read := peripheral_register_read_callback;
     pr_write := peripheral_register_write_callback shl_ub shr_ub |}.

(** The class init of a derived type, on the class as inherited from the
    parent type. *)
Definition derived_peripheral_register_class_init_callback
    (klass : PeripheralRegisterDerivedClass) (ti : PeripheralRegisterTypeInfo)
    : PeripheralRegisterDerivedClass :=
  let pr_class := prd_parent_class klass in
  {| prd_parent_class :=
       {| pr_read := match ti_read ti with Some f => f | None => pr_read pr_class end;
          pr_write := match ti_write ti with Some f => f | None => pr_write pr_class end |};
     prd_parent_read :=
       match ti_read ti with Some _ => Some (pr_read pr_class) | None => prd_parent_read klass end;
     prd_parent_write :=
       match ti_write ti with Some _ => Some (pr_write pr_class) | None => prd_parent_write klass end;
     (* Copy info members into class. *)
     prd_name := ti_type_name ti;
     prd_desc := ti_desc ti;
     prd_offset_bytes := ti_offset_bytes ti;
     prd_reset_value := ti_reset_value ti;
     prd_readable_bits := ti_readable_bits ti;
     prd_writable_bits := ti_writable_bits ti;
     prd_access_flags := ti_access_flags ti;
     prd_rw_mode := ti_rw_mode ti;
     prd_size_bits := ti_size_bits ti;
     prd_bitfields := ti_bitfields ti |}.

(** The instance init of a derived type, on the state the instance init of
    the register type left. *)
Definition derived_peripheral_register_instance_init_callback
    (klass : PeripheralRegisterDerivedClass) (state : PeripheralRegisterState)
    : PeripheralRegisterState :=
  {| reg_name := reg_name state;
     offset_bytes := prd_offset_bytes klass;
     reset_value := prd_reset_value klass;
     readable_bits :=
       if negb (prd_readable_bits klass =? 0)
       then prd_readable_bits klass else readable_bits state;
     writable_bits :=
       if negb (writable_bits state =? 0)
       then prd_writable_bits klass else writable_bits state;
     access_flags :=
       if negb (prd_access_flags klass =? 0)
       then prd_access_flags klass else access_flags state;
     size_bits :=
       if negb (prd_size_bits klass =? 0) then prd_size_bits klass else size_bits state;
     is_readable :=
       if negb (prd_rw_mode klass =? 0) then rw_mode_readable (prd_rw_mode klass)
       else true; (* Default both read and write. *)
     is_writable :=
       if negb (prd_rw_mode klass =? 0) then rw_mode_writable (prd_rw_mode klass)
       else true;
     value := prd_reset_value klass;
     auto_bits := auto_bits state;
     bitfields := bitfields state |}.

End Construction.

(** The class a derived type inherits before its class init runs: the slots
    of the register class, no captured callback, no definition. *)
Definition inherited_class (parent : PeripheralRegisterClass)
    : PeripheralRegisterDerivedClass :=
  {| prd_parent_class := parent; prd_parent_read := None; prd_parent_write := None;
     prd_name := ""; prd_desc := ""; prd_offset_bytes := 0; prd_reset_value := 0;
     prd_readable_bits := 0; prd_writable_bits := 0; prd_access_flags := 0;
     prd_rw_mode := 0; prd_size_bits := 0; prd_bitfields := None |}.

(** ** Inputs of the further examples *)

(** [word_reg] with only the low 16 bits writable. *)
Definition low_half_reg : PeripheralRegisterState :=
  {| reg_name := "H"; offset_bytes := 0; reset_value := 0x11223344;
     readable_bits := UINT64_MAX; writable_bits := 0xFFFF;
     access_flags := 0; size_bits := 32; is_readable := true;
     is_writable := true; value := 0x11223344; auto_bits := [];
     bitfields := [] |}.

(** [reset_overlay_reg] and [readonly_follows_reg] after realize. *)
Definition reset_overlay_live : PeripheralRegisterState :=
  realized_state (hw_realize reset_overlay_reg le_periph) reset_overlay_reg.
Definition readonly_follows_realized : PeripheralRegisterState :=
  realized_state (hw_realize readonly_follows_reg le_periph) readonly_follows_reg.

(** A stand-in for the bitfield type, which is not among the sources, to run
    the construction functions on examples; no property depends on it.  A
    bitfield whose last bit is not set covers its first bit only, and one
    with no mode of its own is taken readable and writable. *)
Definition sample_bitfield_realize (props : RegisterBitfieldProperties)
    : RegisterBitfieldState :=
  register_bitfield (p_name props) (p_first_bit props)
    (default (p_first_bit props) (p_last_bit props))
    (default 0 (p_reset_value props))
    (default true (p_is_readable props)) (default true (p_is_writable props))
    (p_follows props) (p_cleared_by props) (p_set_by props).

(** The construction functions with mode bits 1 (read) and 2 (write). *)
Definition sample_new :=
  peripheral_register_new 1 2 0 sample_bitfield_realize.

(** A read-only register definition without bitfields. *)
Definition read_only_info : PeripheralRegisterInfo :=
  {| info_offset_bytes := 4; info_reset_value := 0x1234; info_readable_bits := 0;
     info_access_flags := 0; info_size_bits := 32; info_rw_mode := 1;
     info_bitfields := None |}.

(** A definition whose second bitfield starts at bit 32. *)
Definition bad_range_info : PeripheralRegisterInfo :=
  {| info_offset_bytes := 0; info_reset_value := 0; info_readable_bits := 0;
     info_access_flags := 0; info_size_bits := 0; info_rw_mode := 0;
     info_bitfields :=
       Some [ {| bi_name := "A"; bi_first_bit := 0; bi_last_bit := 3;
                 bi_reset_value := 0; bi_rw_mode := 0; bi_follows := None;
                 bi_cleared_by := None; bi_set_by := None |};
              {| bi_name := "B"; bi_first_bit := 32; bi_last_bit := 0;
                 bi_reset_value := 0; bi_rw_mode := 0; bi_follows := None;
                 bi_cleared_by := None; bi_set_by := None |} ] |}.

(** A derived type that declares a writable mask and overrides nothing. *)
Definition sample_type_info : PeripheralRegisterTypeInfo :=
  {| ti_type_name := "derived"; ti_desc := ""; ti_offset_bytes := 8;
     ti_reset_value := 0x55; ti_readable_bits := 0xFF; ti_writable_bits := 0x0F;
     ti_access_flags := 0; ti_rw_mode := 3; ti_size_bits := 8;
     ti_bitfields := None; ti_read := None; ti_write := None |}.

(** * Properties *)

(** ** Bits of machine integers *)

Lemma uint64_high_bits (v i : Z) :
  0 <= v < 2 ^ 64 -> 64 <= i -> Z.testbit v i = false.
Proof.
  intros Hv Hi. rewrite <- (Z.mod_small v (2 ^ 64)) by lia.
  apply Z.mod_pow2_bits_high. lia.
Qed.

Lemma wrap64_small (v : Z) : 0 <= v < 2 ^ 64 -> wrap64 v = v.
Proof.
  intros Hv. unfold wrap64. rewrite Z.land_ones by lia. apply Z.mod_small. exact Hv.
Qed.

Lemma testbit_wrap64 (x i : Z) :
  0 <= i -> Z.testbit (wrap64 x) i = Z.testbit x i && (i <? 64).
Proof.
  intros Hi. unfold wrap64. rewrite Z.land_spec, Z.testbit_ones_nonneg by lia.
  reflexivity.
Qed.

Lemma testbit_not64 (x i : Z) :
  0 <= i -> Z.testbit (not64 x) i = negb (Z.testbit x i) && (i <? 64).
Proof.
  intros Hi. unfold not64. rewrite testbit_wrap64, Z.lnot_spec by lia. reflexivity.
Qed.

Lemma not64_0 : not64 0 = Z.ones 64.
Proof. reflexivity. Qed.

(** A byte of the mask that reads 255 has its eight bits set. *)
Lemma byte_full_bits (w k i : Z) :
  0 <= k -> byte_of w k = 255 -> 8 * k <= i < 8 * k + 8 -> Z.testbit w i = true.
Proof.
  intros Hk Hb Hi. unfold byte_of in Hb.
  assert (E : Z.testbit (Z.land (Z.shiftr w (8 * k)) 255) (i - 8 * k) = true).
  { rewrite Hb. change 255 with (Z.ones 8). apply Z.ones_spec_low. lia. }
  rewrite Z.land_spec, Z.shiftr_spec in E by lia.
  apply andb_true_iff in E. destruct E as [E _].
  replace (i - 8 * k + 8 * k) with i in E by lia. exact E.
Qed.

(** Two values that agree outside bits 8..23 have the same bytes except
    bytes 1 and 2. *)
Lemma bytes_outside_1_2 (a b : Z) :
  Z.ldiff a (Z.shiftl (Z.ones 16) 8) = Z.ldiff b (Z.shiftl (Z.ones 16) 8) ->
  forall k, 0 <= k -> k <> 1 -> k <> 2 -> byte_of a k = byte_of b k.
Proof.
  intros E k Hk Hk1 Hk2. unfold byte_of. change 255 with (Z.ones 8).
  apply Z.bits_inj'. intros i Hi.
  rewrite !Z.land_spec, !Z.shiftr_spec by lia.
  destruct (Z.ltb_spec i 8) as [Hlt|Hge].
  - apply (f_equal (fun z => Z.testbit z (i + 8 * k))) in E.
    rewrite !Z.ldiff_spec, Z.shiftl_spec in E by lia.
    assert (O : Z.testbit (Z.ones 16) (i + 8 * k - 8) = false).
    { destruct (Z.eq_dec k 0) as [->|]; [apply Z.testbit_neg_r; lia|].
      apply Z.ones_spec_high; lia. }
    rewrite O in E. cbn in E. rewrite !andb_true_r in E. rewrite E. reflexivity.
  - rewrite Z.ones_spec_high by lia. rewrite !andb_false_r. reflexivity.
Qed.

(** ** The byte loops *)

Lemma copy_bytes_length dst_ix src_ix src n : forall i dst dst',
  copy_bytes dst_ix src_ix src n i dst = Done dst' -> length dst' = length dst.
Proof.
  induction n as [|n IH]; intros i dst dst' H; cbn in H.
  - injection H as <-. reflexivity.
  - destruct (b_get src (src_ix i)) as [x|]; [|discriminate].
    unfold b_set in H.
    destruct ((0 <=? dst_ix i) && (dst_ix i <? 8)); [|discriminate].
    apply IH in H. rewrite H. apply length_insert.
Qed.

(** The loop completes exactly when every index it uses is inside the
    eight bytes. *)
Lemma copy_bytes_done dst_ix src_ix src n : forall i dst,
  length src = 8%nat ->
  indices_ok (copy_indices dst_ix src_ix n i) = true ->
  exists dst', copy_bytes dst_ix src_ix src n i dst = Done dst'.
Proof.
  induction n as [|n IH]; intros i dst Hs Hok; cbn in *.
  - eexists. reflexivity.
  - apply andb_true_iff in Hok. destruct Hok as [Hh Ht].
    apply andb_true_iff in Hh. destruct Hh as [Hd Hsrc].
    unfold index_ok in Hd, Hsrc. unfold b_get, b_set. rewrite Hd, Hsrc.
    destruct (src !! Z.to_nat (src_ix i)) as [x|] eqn:E.
    + apply IH; assumption.
    + apply lookup_ge_None in E. lia.
Qed.

Lemma copy_bytes_fault dst_ix src_ix src n : forall i dst,
  indices_ok (copy_indices dst_ix src_ix n i) = false ->
  copy_bytes dst_ix src_ix src n i dst = Fault OutOfBounds.
Proof.
  induction n as [|n IH]; intros i dst Hok; cbn in *.
  - discriminate.
  - unfold b_get, b_set. fold (index_ok (src_ix i)). fold (index_ok (dst_ix i)).
    destruct (index_ok (src_ix i)) eqn:Es; [|reflexivity].
    destruct (src !! Z.to_nat (src_ix i)) as [x|]; [|reflexivity].
    destruct (index_ok (dst_ix i)) eqn:Ed; [|reflexivity].
    apply IH. cbn in Hok. exact Hok.
Qed.

Lemma copy_le_1_2 (a0 a1 a2 a3 a4 a5 a6 a7 b0 b1 b2 b3 b4 b5 b6 b7 : Z) :
  copy_bytes (le_index 1) host_index [a0; a1; a2; a3; a4; a5; a6; a7]
    (Z.to_nat 2) 0 [b0; b1; b2; b3; b4; b5; b6; b7]
  = Done [b0; a0; a1; b3; b4; b5; b6; b7].
Proof. reflexivity. Qed.

Lemma union_b_length (v : Z) : length (union_b v) = 8%nat.
Proof. reflexivity. Qed.

(** ** The accessor *)

(** C9. [peripheral_register_get_value] returns exactly
    [value & readable_bits], and has no bit set outside [readable_bits],
    whatever the stored value holds. *)
Theorem get_value_within_readable_bits (state : PeripheralRegisterState) :
  peripheral_register_get_value state = Z.land (value state) (readable_bits state)
  /\ Z.ldiff (peripheral_register_get_value state) (readable_bits state) = 0.
Proof.
  split; [reflexivity|].
  unfold peripheral_register_get_value.
  apply Z.bits_inj'. intros i Hi.
  rewrite Z.ldiff_spec, Z.land_spec, Z.bits_0.
  destruct (Z.testbit (value state) i), (Z.testbit (readable_bits state) i); reflexivity.
Qed.

(** ** Byte-granular writes *)

(** C8. On a little-endian guest, with bytes 1 and 2 fully writable (in
    particular with all bits writable) and no propagation rule, a write of
    2 bytes at byte offset 1 completes, stores the two low-order bytes of
    the incoming value in bytes 1 and 2, and leaves every other byte of the
    64-bit storage, and every other field of the state, as it was. *)
Theorem write_two_bytes_at_offset_one (shl_ub shr_ub : Z -> Z -> Z)
    (state : PeripheralRegisterState) (periph : PeripheralState) (addr in_val : Z) :
  is_little_endian periph = true ->
  auto_bits state = [] ->
  0 <= value state < 2 ^ 64 ->
  byte_of (writable_bits state) 1 = 255 ->
  byte_of (writable_bits state) 2 = 255 ->
  exists v',
    peripheral_register_write_callback shl_ub shr_ub state periph addr 1 2 in_val
      = Done (set_value state v')
    /\ byte_of v' 1 = byte_of in_val 0
    /\ byte_of v' 2 = byte_of in_val 1
    /\ (forall k, 0 <= k -> k <> 1 -> k <> 2 -> byte_of v' k = byte_of (value state) k).
Proof.
  intros Hle Hab Hv H1 H2.
  unfold peripheral_register_write_callback, merged_value. rewrite Hle, Hab.
  unfold union_b. cbn [map]. rewrite copy_le_1_2.
  cbn [bind run_auto_bits]. eexists. split; [reflexivity|].
  pose proof (fun i => byte_full_bits (writable_bits state) 1 i ltac:(lia) H1) as B1.
  pose proof (fun i => byte_full_bits (writable_bits state) 2 i ltac:(lia) H2) as B2.
  pose proof (fun i => uint64_high_bits _ i Hv) as Hhi.
  split; [|split].
  - unfold merge_writable. cbn [union_ll]. unfold not64, wrap64, byte_of.
    change 255 with (Z.ones 8). cbn [Z.mul Pos.mul] in *.
    Z.bitblast; rewrite ?B1, ?B2, ?Hhi by lia; btauto.
  - unfold merge_writable. cbn [union_ll]. unfold not64, wrap64, byte_of.
    change 255 with (Z.ones 8). cbn [Z.mul Pos.mul] in *.
    Z.bitblast; rewrite ?B1, ?B2, ?Hhi by lia; btauto.
  - apply bytes_outside_1_2.
    unfold merge_writable. cbn [union_ll]. unfold not64, wrap64, byte_of.
    change 255 with (Z.ones 8). cbn [Z.mul Pos.mul] in *.
    Z.bitblast; repeat Z.bitblast_core; rewrite ?B1, ?B2, ?Hhi by lia; try btauto.
Qed.

(** C8 at [word_reg]: writing 0xAABB at offset 1 over 0x11223344. *)
Lemma write_two_bytes_at_offset_one_witness :
  exists v',
    hw_write word_reg le_periph 0 1 2 0xAABB = Done (set_value word_reg v')
    /\ byte_of v' 1 = byte_of 0xAABB 0
    /\ byte_of v' 2 = byte_of 0xAABB 1
    /\ (forall k, 0 <= k -> k <> 1 -> k <> 2 -> byte_of v' k = byte_of (value word_reg) k).
Proof.
  apply (write_two_bytes_at_offset_one hw_shl hw_shr).
  - reflexivity.
  - reflexivity.
  - cbn. lia.
  - reflexivity.
  - reflexivity.
Defined.

Lemma word_reg_realized :
  match hw_realize (new_register "W" 0x11223344 32 true true []) le_periph with
  | Realized st => peripheral_register_reset_callback st = word_reg
  | _ => False
  end.
Proof. reflexivity. Qed.

Example word_reg_write :
  hw_write word_reg le_periph 0 1 2 0xAABB = Done (set_value word_reg 0x11AABB44).
Proof. reflexivity. Qed.

(** ** Index safety of the byte loops *)

(** On a little-endian guest every index of both loops is inside the eight
    bytes when the access ends inside them. *)
Lemma le_indices_in_bounds (n : nat) : forall i offset,
  0 <= i -> 0 <= offset -> i + Z.of_nat n + offset <= 8 ->
  indices_ok (copy_indices host_index (le_index offset) n i) = true
  /\ indices_ok (copy_indices (le_index offset) host_index n i) = true.
Proof.
  induction n as [|n IH]; intros i offset Hi Ho Hb; [split; reflexivity|].
  destruct (IH (i + 1) offset) as [IH1 IH2]; try lia.
  unfold indices_ok in *. cbn [copy_indices forallb fst snd].
  rewrite IH1, IH2.
  unfold index_ok, host_index, le_index, u32.
  rewrite Z.mod_small by lia.
  split; repeat (apply andb_true_iff; split); try reflexivity;
    try (apply Z.leb_le; lia); try (apply Z.ltb_lt; lia).
Qed.

(** C10, at the failing access: on a big-endian guest an access of one byte
    at offset 0 uses index [8 - (0 + 0) = 8] of the eight-byte array, in the
    read callback as the source and in the write callback as the
    destination; the model reports the access as a fault. *)
Theorem big_endian_index_out_of_bounds (shl_ub shr_ub : Z -> Z -> Z)
    (state : PeripheralRegisterState) (addr in_val : Z) :
  read_indices be_periph 0 1 = [(0, 8)]
  /\ write_indices be_periph 0 1 = [(8, 0)]
  /\ index_ok 8 = false
  /\ peripheral_register_read_callback state be_periph addr 0 1 = Fault OutOfBounds
  /\ peripheral_register_write_callback shl_ub shr_ub state be_periph addr 0 1 in_val
      = Fault OutOfBounds.
Proof.
  repeat split; try reflexivity.
Qed.

(** On a big-endian guest every access of at least one byte at offset 0
    leaves the array. *)
Lemma be_offset_zero_faults (shl_ub shr_ub : Z -> Z -> Z)
    (state : PeripheralRegisterState) (addr size in_val : Z) :
  0 < size ->
  peripheral_register_read_callback state be_periph addr 0 size = Fault OutOfBounds
  /\ peripheral_register_write_callback shl_ub shr_ub state be_periph addr 0 size in_val
     = Fault OutOfBounds.
Proof.
  intros Hs. unfold peripheral_register_read_callback,
    peripheral_register_write_callback, merged_value.
  destruct (Z.to_nat size) as [|n] eqn:E; [lia|].
  split; reflexivity.
Qed.

(** ** Writes to a register without writable bits *)

Lemma merge_writable_none (state : PeripheralRegisterState) (new_value : Z) :
  writable_bits state = 0 -> 0 <= value state < 2 ^ 64 ->
  merge_writable state new_value = value state.
Proof.
  intros Hw Hv. unfold merge_writable. rewrite Hw, not64_0, Z.land_0_r, Z.lor_0_r.
  apply wrap64_small. exact Hv.
Qed.

Lemma merged_value_done (state : PeripheralRegisterState) (periph : PeripheralState)
    (offset size in_val : Z) :
  indices_ok (write_indices periph offset size) = true ->
  exists new_value,
    merged_value state periph offset size in_val
      = Done (merge_writable state new_value).
Proof.
  intros Hok. unfold merged_value, write_indices in *.
  destruct (is_little_endian periph).
  - destruct (copy_bytes_done (le_index offset) host_index (union_b in_val)
                (Z.to_nat size) 0 (union_b (value state)) (union_b_length _) Hok)
      as [dst' E].
    rewrite E. eexists. reflexivity.
  - destruct (copy_bytes_done (be_index offset) host_index (union_b in_val)
                (Z.to_nat size) 0 (union_b (value state)) (union_b_length _) Hok)
      as [dst' E].
    rewrite E. eexists. reflexivity.
Qed.

(** C4, as the code has it.  With [writable_bits = 0] a write whose bytes
    stay inside the storage completes and ignores the incoming bytes: it
    commits the result of the rule loop run over the stored value.  The
    stored value is unchanged when the register has no rule. *)
Theorem write_without_writable_bits (shl_ub shr_ub : Z -> Z -> Z)
    (state : PeripheralRegisterState) (periph : PeripheralState)
    (addr offset size in_val : Z) :
  writable_bits state = 0 ->
  0 <= value state < 2 ^ 64 ->
  indices_ok (write_indices periph offset size) = true ->
  peripheral_register_write_callback shl_ub shr_ub state periph addr offset size in_val
    = Done (set_value state (run_auto_bits shl_ub shr_ub (auto_bits state) (value state)))
  /\ (auto_bits state = [] ->
      run_auto_bits shl_ub shr_ub (auto_bits state) (value state) = value state).
Proof.
  intros Hw Hv Hok. split.
  - unfold peripheral_register_write_callback.
    destruct (merged_value_done state periph offset size in_val Hok) as [nv E].
    rewrite E. cbn [bind]. rewrite merge_writable_none by assumption. reflexivity.
  - intros ->. reflexivity.
Qed.

(** C4 at the realized and reset [readonly_follows_reg]: a write of one
    byte commits the rule loop's result on the stored value 0x0A. *)
Lemma write_without_writable_bits_witness :
  hw_write readonly_follows_live le_periph 0 0 1 0
    = Done (set_value readonly_follows_live
              (run_auto_bits hw_shl hw_shr (auto_bits readonly_follows_live)
                 (value readonly_follows_live)))
  /\ (auto_bits readonly_follows_live = [] ->
      run_auto_bits hw_shl hw_shr (auto_bits readonly_follows_live)
        (value readonly_follows_live) = value readonly_follows_live).
Proof.
  apply (write_without_writable_bits hw_shl hw_shr).
  - reflexivity.
  - vm_compute. split; [discriminate | reflexivity].
  - reflexivity.
Defined.

(** C4, the counterexample.  [readonly_follows_reg] is realized with
    [writable_bits = 0]; after reset it holds 0x0A; a write of one zero byte
    commits 0xAA, because the FOLLOWS rule copies A into B. *)
Lemma write_without_writable_bits_changes_value :
  hw_realize readonly_follows_reg le_periph
    = Realized (realized_state (hw_realize readonly_follows_reg le_periph)
                  readonly_follows_reg)
  /\ writable_bits readonly_follows_live = 0
  /\ value readonly_follows_live = 0x0A
  /\ hw_write readonly_follows_live le_periph 0 0 1 0
     = Done (set_value readonly_follows_live 0xAA).
Proof.
  repeat split; reflexivity.
Qed.

(** ** Validation of the bitfield masks *)

Lemma land_lor_zero (b acc m : Z) :
  Z.land b (Z.lor acc m) = 0 <-> Z.land b acc = 0 /\ Z.land b m = 0.
Proof.
  rewrite Z.land_lor_distr_r. apply Z.lor_eq_0_iff.
Qed.

Lemma validate_step (shl_ub : Z -> Z -> Z) (reg : PeripheralRegisterState)
    (bifi : RegisterBitfieldState) (tmp : PeripheralRegisterValidateTmp) :
  (Z.land (bf_mask bifi) (v_mask tmp) <> 0
   /\ peripheral_register_validate_bitfields shl_ub reg bifi tmp
      = ConfigError (ErrOverlap (bf_name bifi) (reg_name reg)))
  \/ (Z.land (bf_mask bifi) (v_mask tmp) = 0
      /\ exists tmp', peripheral_register_validate_bitfields shl_ub reg bifi tmp = Done tmp'
                      /\ v_mask tmp' = Z.lor (v_mask tmp) (bf_mask bifi)).
Proof.
  unfold peripheral_register_validate_bitfields.
  destruct (Z.eqb_spec (Z.land (bf_mask bifi) (v_mask tmp)) 0) as [E|E]; cbn [negb].
  - right. split; [exact E|]. eexists. split; reflexivity.
  - left. split; [exact E|reflexivity].
Qed.

(** What the validation walk returns, from any accumulator: it completes
    exactly on a list that is pairwise disjoint and disjoint from the mask
    accumulated so far; otherwise it stops at the first child that overlaps
    what precedes it, with the error that names it. *)
Lemma validate_walk (shl_ub : Z -> Z -> Z) (reg : PeripheralRegisterState) :
  forall children tmp,
  match object_child_foreach children
          (peripheral_register_validate_bitfields shl_ub reg) tmp with
  | Done tmp' =>
      Forall (fun b => Z.land (bf_mask b) (v_mask tmp) = 0) children
      /\ pairwise_disjoint children
      /\ v_mask tmp' = fold_left (fun acc b => Z.lor acc (bf_mask b)) children (v_mask tmp)
  | ConfigError e =>
      exists pre b post,
        children = pre ++ b :: post
        /\ e = ErrOverlap (bf_name b) (reg_name reg)
        /\ Forall (fun b => Z.land (bf_mask b) (v_mask tmp) = 0) pre
        /\ pairwise_disjoint pre
        /\ (Z.land (bf_mask b) (v_mask tmp) <> 0
            \/ exists a, In a pre /\ Z.land (bf_mask a) (bf_mask b) <> 0)
  | Fault _ => False
  end.
Proof.
  induction children as [|b r IH]; intros tmp; cbn [object_child_foreach].
  - repeat split; constructor.
  - destruct (validate_step shl_ub reg b tmp) as [[Hov E]|[Hz [tmp1 [E Hm]]]];
      rewrite E; cbn [bind].
    + exists [], b, r. split; [reflexivity|]. split; [reflexivity|].
      split; [constructor|]. split; [exact I|]. left. exact Hov.
    + specialize (IH tmp1).
      destruct (object_child_foreach r _ tmp1) as [tmp'|e|f]; [| |exact IH].
      * destruct IH as [Hall [Hpd Hfold]]. rewrite Hm in Hall, Hfold.
        split; [|split].
        -- constructor; [exact Hz|].
           eapply Forall_impl; [exact Hall|]. cbn.
           intros c Hc. apply land_lor_zero in Hc. tauto.
        -- cbn. split; [|exact Hpd].
           eapply Forall_impl; [exact Hall|]. cbn.
           intros c Hc. apply land_lor_zero in Hc. tauto.
        -- cbn [fold_left]. exact Hfold.
      * destruct IH as [pre [b' [post [Hsplit [He [Hall [Hpd Hov]]]]]]].
        rewrite Hm in Hall, Hov.
        exists (b :: pre), b', post. subst r. split; [reflexivity|].
        split; [exact He|]. split; [|split].
        -- constructor; [exact Hz|].
           eapply Forall_impl; [exact Hall|]. cbn.
           intros c Hc. apply land_lor_zero in Hc. tauto.
        -- cbn. split; [|exact Hpd].
           eapply Forall_impl; [exact Hall|]. cbn.
           intros c Hc. apply land_lor_zero in Hc. tauto.
        -- destruct Hov as [Hov|[a [Ha Hab]]].
           ++ destruct (Z.eq_dec (Z.land (bf_mask b') (v_mask tmp)) 0) as [Z0|NZ];
                [|left; exact NZ].
              right. exists b. split; [left; reflexivity|].
              intros Hbb. apply Hov. apply land_lor_zero. split; [exact Z0|].
              rewrite Z.land_comm. exact Hbb.
           ++ right. exists a. split; [right; exact Ha|exact Hab].
Qed.

(** [pairwise_disjoint] says that any two children at different positions
    have masks whose bitwise AND is zero. *)
Lemma pairwise_disjoint_lookup (l : list RegisterBitfieldState) :
  pairwise_disjoint l
  <-> forall (i j : nat) a b, (i < j)%nat -> l !! i = Some a -> l !! j = Some b ->
                              Z.land (bf_mask a) (bf_mask b) = 0.
Proof.
  induction l as [|c r IH]; cbn [pairwise_disjoint].
  - split; [|trivial]. intros _ i j a b _ H. discriminate H.
  - rewrite IH, Forall_lookup. split.
    + intros [Hc Hr] i j a b Hij Ha Hb.
      destruct j as [|j]; [lia|]. destruct i as [|i].
      * injection Ha as <-. rewrite Z.land_comm. exact (Hc j b Hb).
      * apply (Hr i j); [lia|exact Ha|exact Hb].
    + intros H. split.
      * intros j b Hb. rewrite Z.land_comm. apply (H 0%nat (S j)); [lia|reflexivity|exact Hb].
      * intros i j a b Hij Ha Hb. apply (H (S i) (S j)); [lia|exact Ha|exact Hb].
Qed.

(** C6. When two children have overlapping masks, the validation walk stops
    at the first child [b] whose mask meets an earlier one, with the error
    that names [b] and the register, and realize rejects the register with
    that error; when the masks are pairwise disjoint, the walk completes and
    has collected their union. *)
Theorem validation_rejects_first_overlap (shl_ub : Z -> Z -> Z) (default : Z)
    (state : PeripheralRegisterState) (parent : PeripheralState) :
  (pairwise_disjoint (bitfields state) ->
   exists tmp,
     object_child_foreach (bitfields state)
       (peripheral_register_validate_bitfields shl_ub state) validate_tmp0 = Done tmp
     /\ v_mask tmp = union_mask (bitfields state))
  /\ (~ pairwise_disjoint (bitfields state) ->
      exists pre b post a,
        bitfields state = pre ++ b :: post
        /\ pairwise_disjoint pre
        /\ In a pre /\ Z.land (bf_mask a) (bf_mask b) <> 0
        /\ object_child_foreach (bitfields state)
             (peripheral_register_validate_bitfields shl_ub state) validate_tmp0
           = ConfigError (ErrOverlap (bf_name b) (reg_name state))
        /\ exists state',
             peripheral_register_realize_callback shl_ub default state parent
             = Rejected (ErrOverlap (bf_name b) (reg_name state)) state').
Proof.
  pose proof (validate_walk shl_ub state (bitfields state) validate_tmp0) as W.
  unfold peripheral_register_realize_callback.
  destruct (object_child_foreach (bitfields state) _ validate_tmp0) as [tmp|e|f];
    [| |contradiction].
  - destruct W as [_ [Hpd Hfold]]. split.
    + intros _. exists tmp. split; [reflexivity|exact Hfold].
    + intros Hn. contradiction.
  - destruct W as [pre [b [post [Hsplit [He [_ [Hpd Hov]]]]]]]. split.
    + intros Hd. exfalso. rewrite Hsplit in Hd.
      destruct Hov as [Hov|[a [Ha Hab]]]; [apply Hov; apply Z.land_0_r|].
      clear - Hd Ha Hab. induction pre as [|c pre IH]; [destruct Ha|].
      cbn in Hd. destruct Hd as [Hall Hd]. destruct Ha as [->|Ha].
      * apply Forall_app in Hall. destruct Hall as [_ Hall].
        apply Forall_cons in Hall. destruct Hall as [Hb _].
        apply Hab. rewrite Z.land_comm. exact Hb.
      * apply IH; assumption.
    + intros _. destruct Hov as [Hov|[a [Ha Hab]]]; [exfalso; apply Hov; apply Z.land_0_r|].
      exists pre, b, post, a. subst e. repeat split; try assumption.
      eexists. reflexivity.
Qed.

(** C6 at [word_reg], which has no bitfield, and at [overlap_reg], where the
    walk stops at C. *)
Lemma validation_rejects_first_overlap_witness :
  (exists tmp,
     object_child_foreach (bitfields word_reg)
       (peripheral_register_validate_bitfields hw_shl word_reg) validate_tmp0 = Done tmp
     /\ v_mask tmp = union_mask (bitfields word_reg))
  /\ (exists pre b post a,
        bitfields overlap_reg = pre ++ b :: post
        /\ pairwise_disjoint pre
        /\ In a pre /\ Z.land (bf_mask a) (bf_mask b) <> 0
        /\ object_child_foreach (bitfields overlap_reg)
             (peripheral_register_validate_bitfields hw_shl overlap_reg) validate_tmp0
           = ConfigError (ErrOverlap (bf_name b) (reg_name overlap_reg))
        /\ exists state',
             peripheral_register_realize_callback hw_shl 32 overlap_reg le_periph
             = Rejected (ErrOverlap (bf_name b) (reg_name overlap_reg)) state').
Proof.
  split.
  - apply (proj1 (validation_rejects_first_overlap hw_shl 32 word_reg le_periph)).
    exact I.
  - apply (proj2 (validation_rejects_first_overlap hw_shl 32 overlap_reg le_periph)).
    intros [_ [H _]]. apply Forall_cons in H. destruct H as [H _].
    vm_compute in H. discriminate H.
Defined.

Example overlap_reg_rejected :
  exists state',
    hw_realize overlap_reg le_periph = Rejected (ErrOverlap "C" "R") state'
    /\ error_message (ErrOverlap "C" "R")
       = ("Bitfield C of register R  overlaps with other bitfield." ++ newline)%string.
Proof. eexists. split; reflexivity. Qed.

(** ** Compilation of the relationships *)

Lemma accumulate_distance_zero (bifi found : RegisterBitfieldState) (l r : list Z) :
  first_bit bifi = first_bit found -> accumulate bifi found l r = Done (l, r).
Proof.
  intros E. unfold accumulate. rewrite E, Z.sub_diag. reflexivity.
Qed.

(** A [cleared_by] at distance zero leaves the six arrays as they are. *)
Lemma create_auto_array_distance_zero (reg : PeripheralRegisterState)
    (bifi : RegisterBitfieldState) (auto_tmp : PeripheralRegisterAutoTmp) :
  cleared_by_at_distance_zero (bitfields reg) bifi ->
  peripheral_register_create_auto_array reg bifi auto_tmp = Done auto_tmp.
Proof.
  intros [Hf [Hs Hc]]. unfold peripheral_register_create_auto_array.
  rewrite Hf, Hs. destruct (cleared_by bifi) as [d|]; [|reflexivity].
  destruct Hc as [found [Hfind Hd]]. rewrite Hfind. cbn [bind].
  rewrite (accumulate_distance_zero _ _ _ _ Hd). cbn [bind fst snd].
  destruct auto_tmp; reflexivity.
Qed.

Lemma create_auto_array_walk_distance_zero (reg : PeripheralRegisterState) :
  forall children auto_tmp,
  Forall (cleared_by_at_distance_zero (bitfields reg)) children ->
  object_child_foreach children (peripheral_register_create_auto_array reg) auto_tmp
  = Done auto_tmp.
Proof.
  induction children as [|b r IH]; intros auto_tmp H; cbn [object_child_foreach].
  - reflexivity.
  - apply Forall_cons in H. destruct H as [Hb Hr].
    rewrite (create_auto_array_distance_zero _ _ _ Hb). cbn [bind].
    apply IH. exact Hr.
Qed.

Lemma build_auto_bits_empty : build_auto_bits auto_tmp0 = [].
Proof. reflexivity. Qed.

(** The compiler adds a mask only for a positive or a negative distance.
    When the only relationships of a register that passes validation are
    [cleared_by] at bit distance zero, realize compiles no rule for them:
    the table is empty, and a write commits the merged value as it is. *)
Theorem cleared_by_distance_zero_compiles_no_rule (shl_ub shr_ub : Z -> Z -> Z)
    (default : Z) (state : PeripheralRegisterState) (parent : PeripheralState)
    (validate_tmp : PeripheralRegisterValidateTmp) :
  object_child_foreach (bitfields state)
    (peripheral_register_validate_bitfields shl_ub state) validate_tmp0
    = Done validate_tmp ->
  Forall (cleared_by_at_distance_zero (bitfields state)) (bitfields state) ->
  exists st,
    peripheral_register_realize_callback shl_ub default state parent = Realized st
    /\ auto_bits st = []
    /\ forall periph addr offset size in_val,
         peripheral_register_write_callback shl_ub shr_ub st periph addr offset size in_val
         = step tmp <- merged_value st periph offset size in_val in
           Done (set_value st tmp).
Proof.
  intros Hv Hz. unfold peripheral_register_realize_callback. rewrite Hv.
  rewrite create_auto_array_walk_distance_zero by exact Hz.
  rewrite build_auto_bits_empty.
  eexists. split; [reflexivity|]. split; [reflexivity|].
  intros periph addr offset size in_val.
  unfold peripheral_register_write_callback.
  destruct (merged_value _ periph offset size in_val); reflexivity.
Qed.

(** At [cleared_by_zero_reg], whose one field names itself. *)
Lemma cleared_by_distance_zero_compiles_no_rule_witness :
  exists st,
    peripheral_register_realize_callback hw_shl 32 cleared_by_zero_reg le_periph
      = Realized st
    /\ auto_bits st = []
    /\ forall periph addr offset size in_val,
         peripheral_register_write_callback hw_shl hw_shr st periph addr offset size in_val
         = step tmp <- merged_value st periph offset size in_val in
           Done (set_value st tmp).
Proof.
  eapply (cleared_by_distance_zero_compiles_no_rule hw_shl hw_shr 32
            cleared_by_zero_reg le_periph).
  - reflexivity.
  - constructor; [|constructor].
    split; [reflexivity|]. split; [reflexivity|].
    eexists. split; reflexivity.
Defined.

(** Two fields at distance zero whose masks hold their first bit overlap, so
    validation rejects a register that has two distinct such fields. *)
Lemma distance_zero_fields_overlap (a b : RegisterBitfieldState) :
  0 <= first_bit a ->
  first_bit a = first_bit b ->
  Z.testbit (bf_mask a) (first_bit a) = true ->
  Z.testbit (bf_mask b) (first_bit b) = true ->
  Z.land (bf_mask a) (bf_mask b) <> 0.
Proof.
  intros H0 E Ha Hb Hz.
  apply (f_equal (fun z => Z.testbit z (first_bit a))) in Hz.
  rewrite Z.land_spec, Z.bits_0, Ha, E, Hb in Hz. discriminate Hz.
Qed.

Lemma register_bitfield_mask_first_bit (name : string) (first last reset : Z)
    (r w : bool) (f c s : option string) :
  0 <= first <= last ->
  Z.testbit (bf_mask (register_bitfield name first last reset r w f c s)) first = true.
Proof.
  intros H. cbn [bf_mask register_bitfield].
  rewrite Z.shiftl_spec by lia. rewrite Z.sub_diag.
  apply Z.ones_spec_low. lia.
Qed.

(** X21. Two bitfield children at different positions that start at the same
    bit, each with a mask that holds that bit, are never realized: the
    validation walk does not fault, and it stops with the overlap error at
    some child, which realize reports for the register.  So a relationship
    at bit distance zero between two distinct such siblings never reaches a
    write. *)
Theorem distinct_fields_at_distance_zero_rejected (shl_ub : Z -> Z -> Z) (default : Z)
    (state : PeripheralRegisterState) (parent : PeripheralState)
    (i j : nat) (c d : RegisterBitfieldState) :
  i <> j ->
  bitfields state !! i = Some c ->
  bitfields state !! j = Some d ->
  0 <= first_bit c ->
  first_bit c = first_bit d ->
  Z.testbit (bf_mask c) (first_bit c) = true ->
  Z.testbit (bf_mask d) (first_bit d) = true ->
  exists pre b post state',
    bitfields state = pre ++ b :: post
    /\ peripheral_register_realize_callback shl_ub default state parent
       = Rejected (ErrOverlap (bf_name b) (reg_name state)) state'.
Proof.
  intros Hij Hc Hd H0 E Tc Td.
  unfold peripheral_register_realize_callback.
  pose proof (validate_walk shl_ub state (bitfields state) validate_tmp0) as W.
  destruct (object_child_foreach (bitfields state)
              (peripheral_register_validate_bitfields shl_ub state) validate_tmp0)
    as [tmp|e|f]; [|clear Hij|destruct W].
  - exfalso. destruct W as [_ [Hpd _]].
    pose proof (proj1 (pairwise_disjoint_lookup (bitfields state)) Hpd) as L.
    destruct (Nat.lt_ge_cases i j) as [Lt|Ge].
    + apply (distance_zero_fields_overlap c d H0 E Tc Td).
      exact (L i j c d Lt Hc Hd).
    + assert (Lt : (j < i)%nat) by lia.
      apply (distance_zero_fields_overlap c d H0 E Tc Td).
      rewrite Z.land_comm. exact (L j i d c Lt Hd Hc).
  - destruct W as [pre [b [post [Hsplit [He _]]]]]. subst e.
    exists pre, b, post. eexists. split; [exact Hsplit|reflexivity].
Qed.

(** ** The FOLLOWS rule *)

(** X7. A FOLLOWS rule with a positive shift mirrors the referred bits: when the
    shifted mask stays inside the 64 bits and apart from the mask, the bits
    under the shifted mask equal the bits under the mask after the rule, and
    the latter are the ones the rule found. *)
Lemma follows_left_shift_mirrors (shl_ub shr_ub : Z -> Z -> Z) (m s tmp : Z) :
  0 < s < 64 -> 0 <= tmp < 2 ^ 64 -> 0 <= Z.shiftl m s < 2 ^ 64 ->
  Z.land m (Z.shiftl m s) = 0 ->
  let tmp' := apply_auto_bits shl_ub shr_ub
                {| ab_mask := m; ab_shift := s;
                   ab_type := PERIPHERAL_REGISTER_AUTO_BITS_TYPE_FOLLOWS |} tmp in
  Z.land (Z.shiftr tmp' s) m = Z.land tmp m /\ Z.land tmp' m = Z.land tmp m.
Proof.
  intros Hs Ht Hm Hd. cbv zeta. unfold apply_auto_bits. cbn [ab_mask ab_shift ab_type].
  destruct (Z.ltb_spec 0 s) as [_|]; [|lia].
  unfold shl64. destruct (Z.leb_spec 0 s) as [_|]; [|lia].
  destruct (Z.ltb_spec s 64) as [_|]; [|lia]. cbn [andb].
  pose proof (fun i => uint64_high_bits _ i Ht) as Hhi.
  pose proof (fun i => uint64_high_bits _ i Hm) as Mhi.
  assert (D : forall i, Z.testbit m i && Z.testbit (Z.shiftl m s) i = false).
  { intros i. rewrite <- Z.land_spec, Hd. apply Z.bits_0. }
  split; apply Z.bits_inj'; intros i Hi.
  - rewrite !Z.land_spec, Z.shiftr_spec, Z.lor_spec, Z.land_spec by lia.
    rewrite testbit_not64, !testbit_wrap64 by lia.
    rewrite !Z.shiftl_spec by lia. replace (i + s - s) with i by lia.
    rewrite !Z.land_spec, testbit_not64, testbit_wrap64 by lia.
    destruct (Z.testbit m i) eqn:Em; [|btauto].
    pose proof (D i) as Di. rewrite Em in Di. cbn [andb] in Di. rewrite Di.
    pose proof (Mhi (i + s)) as Mi. rewrite Z.shiftl_spec in Mi by lia.
    replace (i + s - s) with i in Mi by lia. rewrite Em in Mi.
    destruct (Z.ltb_spec (i + s) 64) as [L|L]; [|specialize (Mi L); discriminate Mi].
    destruct (Z.ltb_spec i 64) as [L'|L']; [|lia].
    btauto.
  - rewrite !Z.land_spec, Z.lor_spec, Z.land_spec by lia.
    rewrite testbit_not64, !testbit_wrap64 by lia.
    destruct (Z.testbit m i) eqn:Em; [|btauto].
    pose proof (D i) as Di. rewrite Em in Di. cbn [andb] in Di. rewrite Di.
    destruct (Z.ltb_spec i 64) as [L|L]; [|rewrite (Hhi i L); btauto].
    destruct (Z.ltb_spec i s) as [Ls|Ls].
    + rewrite (Z.shiftl_spec_low _ _ _ Ls). btauto.
    + rewrite Z.shiftl_spec in Di |- * by lia. rewrite !Z.land_spec, Di. btauto.
Qed.

(** With B above A the distance is +4 and the mirror works: a write of 0x0A
    commits 0xAA. *)
Example follows_up_reg_mirrors :
  hw_realize follows_up_reg le_periph = Realized follows_up_live
  /\ auto_bits follows_up_live
     = [{| ab_mask := 0x0F; ab_shift := 4;
           ab_type := PERIPHERAL_REGISTER_AUTO_BITS_TYPE_FOLLOWS |}]
  /\ hw_write follows_up_live le_periph 0 0 1 0x0A
     = Done (set_value follows_up_live 0xAA).
Proof. repeat split; reflexivity. Qed.

(** C1, at the failing input.  For [follows_down_reg] realize compiles the
    single rule (mask 0xF0, shift -4, FOLLOWS).  The rule loop then
    evaluates [mask >> shift] with the negative count.  With the count taken
    modulo 64 both shifts give 0, and a write of 0xA0 over 0 commits 0xA0:
    the bits of A are 0b1010 and the bits of B are 0.  Read as a shift to
    the left by 4, the other value a negative count is given, the write
    commits 0xAA0, and the bits of B are 0 again. *)
Theorem follows_negative_distance_not_mirrored :
  hw_realize follows_down_reg le_periph = Realized follows_down_live
  /\ auto_bits follows_down_live
     = [{| ab_mask := 0xF0; ab_shift := -4;
           ab_type := PERIPHERAL_REGISTER_AUTO_BITS_TYPE_FOLLOWS |}]
  /\ writable_bits follows_down_live = 0xFF
  /\ merged_value follows_down_live le_periph 0 1 0xA0 = Done 0xA0
  /\ shr64 hw_shr 0xF0 (-4) = 0
  /\ hw_write follows_down_live le_periph 0 0 1 0xA0
     = Done (set_value follows_down_live 0xA0)
  /\ Z.land (Z.shiftr 0xA0 4) 0xF = 10
  /\ Z.land 0xA0 0xF = 0
  /\ peripheral_register_write_callback Z.shiftl Z.shiftr
       follows_down_live le_periph 0 0 1 0xA0
     = Done (set_value follows_down_live 0xAA0)
  /\ Z.land 0xAA0 0xF = 0.
Proof.
  repeat split; reflexivity.
Qed.

(** In the [set_by] branch the name searched for is [bifi->cleared_by],
    which is null there; the search dereferences it at the first child. *)
Lemma set_by_branch_null_dereference (reg : PeripheralRegisterState)
    (bifi : RegisterBitfieldState) (auto_tmp : PeripheralRegisterAutoTmp) (s : string) :
  follows bifi = None -> cleared_by bifi = None -> set_by bifi = Some s ->
  bitfields reg <> [] ->
  peripheral_register_create_auto_array reg bifi auto_tmp = Fault NullDereference.
Proof.
  intros Hf Hc Hs Hne. unfold peripheral_register_create_auto_array.
  rewrite Hf, Hc, Hs. destruct (bitfields reg) as [|c r]; [contradiction|].
  reflexivity.
Qed.

(** C3, at the failing input.  For [set_by_reg], where T declares
    [set_by = S] and S exists, the search runs on the null [cleared_by] of T
    and realize ends in a null dereference: no SET_BY rule is compiled from
    S. *)
Theorem set_by_resolved_from_cleared_by :
  peripheral_register_create_auto_array set_by_reg
    (register_bitfield "T" 1 1 0 true true None None (Some "S"%string)) auto_tmp0
    = Fault NullDereference
  /\ find_among_children (Some "S"%string) (bitfields set_by_reg)
     = Done (Some (register_bitfield "S" 0 0 0 true true None None None))
  /\ hw_realize set_by_reg le_periph = Crashed NullDereference.
Proof.
  repeat split; reflexivity.
Qed.

(** The reset value realize leaves: the composite of the bitfields is OR-ed
    into the register's own reset value. *)
Lemma realize_masks_reset_value (default : Z) (state : PeripheralRegisterState)
    (parent : PeripheralState) (validate_tmp : PeripheralRegisterValidateTmp) :
  0 <= reset_value state < 2 ^ 64 ->
  reset_value (realize_masks default state parent validate_tmp)
  = Z.lor (reset_value state)
          (Z.land (v_reset_value validate_tmp) (v_mask validate_tmp)).
Proof.
  intros Hr. cbn [reset_value realize_masks].
  pose proof (fun i => uint64_high_bits _ i Hr) as Hhi.
  unfold not64, wrap64.
  Z.bitblast; rewrite ?Hhi by lia; btauto.
Qed.

(** C5, at the failing input.  [reset_overlay_reg] declares reset value
    0xFF and a bitfield over bits [0,3] with reset value 0.  The walk
    collects mask 0x0F and composite 0; realize leaves the reset value at
    0xFF, so bits 0 to 3 keep the register's own ones where the composite
    has zeros. *)
Theorem reset_value_zero_bits_do_not_win :
  object_child_foreach (bitfields reset_overlay_reg)
    (peripheral_register_validate_bitfields hw_shl reset_overlay_reg) validate_tmp0
    = Done {| v_mask := 0x0F; v_readable_bits := 0x0F; v_writable_bits := 0x0F;
              v_reset_value := 0 |}
  /\ reset_value (realized_state (hw_realize reset_overlay_reg le_periph)
                    reset_overlay_reg) = 0xFF
  /\ Z.land 0xFF 0x0F <> Z.land 0 0x0F.
Proof.
  repeat split; try reflexivity. discriminate.
Qed.

Example reset_overlay_reg_realized :
  exists st, hw_realize reset_overlay_reg le_periph = Realized st.
Proof. eexists. reflexivity. Qed.

(** ** Dangling relationship targets *)

(** The search finds nothing exactly when no child has the name. *)
Lemma find_among_children_none (t : string) (children : list RegisterBitfieldState) :
  find_among_children (Some t) children = Done None
  <-> Forall (fun c => bf_name c <> t) children.
Proof.
  induction children as [|c r IH]; cbn [find_among_children peripheral_register_find_bifi bind].
  - split; [constructor|reflexivity].
  - destruct (String.eqb_spec t (bf_name c)) as [E|E].
    + split; [discriminate|]. intros H. apply Forall_cons in H.
      destruct H as [H _]. congruence.
    + rewrite IH. split.
      * intros H. constructor; [congruence|exact H].
      * intros H. apply Forall_cons in H. tauto.
Qed.

(** A [follows] whose target no child has is rejected with the error that
    carries the referencing bitfield, the register and the missing name. *)
Lemma follows_missing_rejected (reg : PeripheralRegisterState)
    (bifi : RegisterBitfieldState) (auto_tmp : PeripheralRegisterAutoTmp) (t : string) :
  follows bifi = Some t ->
  Forall (fun c => bf_name c <> t) (bitfields reg) ->
  peripheral_register_create_auto_array reg bifi auto_tmp
  = ConfigError (ErrFollowsMissing (bf_name bifi) (reg_name reg) (Some t)).
Proof.
  intros Hf Hn. apply find_among_children_none in Hn.
  unfold peripheral_register_create_auto_array. rewrite Hf, Hn.
  destruct (cleared_by bifi), (set_by bifi); reflexivity.
Qed.

(** The same for [cleared_by], which is looked at when [follows] is null. *)
Lemma cleared_by_missing_rejected (reg : PeripheralRegisterState)
    (bifi : RegisterBitfieldState) (auto_tmp : PeripheralRegisterAutoTmp) (t : string) :
  follows bifi = None -> cleared_by bifi = Some t ->
  Forall (fun c => bf_name c <> t) (bitfields reg) ->
  peripheral_register_create_auto_array reg bifi auto_tmp
  = ConfigError (ErrClearedByMissing (bf_name bifi) (reg_name reg) (Some t)).
Proof.
  intros Hf Hc Hn. apply find_among_children_none in Hn.
  unfold peripheral_register_create_auto_array. rewrite Hf, Hc, Hn.
  destruct (set_by bifi); reflexivity.
Qed.

(** A walk that completes has completed on each child. *)
Lemma object_child_foreach_done {T : Type}
    (fn : RegisterBitfieldState -> T -> outcome T) :
  forall children t t',
  object_child_foreach children fn t = Done t' ->
  Forall (fun c => exists t1 t2, fn c t1 = Done t2) children.
Proof.
  induction children as [|c r IH]; intros t t' H; [constructor|].
  cbn [object_child_foreach] in H.
  destruct (fn c t) as [t1|e|f] eqn:E; try discriminate H.
  cbn [bind] in H. constructor; [exists t, t1; exact E|].
  eapply IH. exact H.
Qed.

(** X17. Realize never accepts a register one of whose children declares a
    [follows], or a [cleared_by] without [follows], that no child answers. *)
Lemma dangling_target_never_realized (shl_ub : Z -> Z -> Z) (default : Z)
    (state : PeripheralRegisterState) (parent : PeripheralState)
    (bifi : RegisterBitfieldState) (t : string) :
  In bifi (bitfields state) ->
  follows bifi = Some t \/ (follows bifi = None /\ cleared_by bifi = Some t) ->
  Forall (fun c => bf_name c <> t) (bitfields state) ->
  forall st, peripheral_register_realize_callback shl_ub default state parent
             <> Realized st.
Proof.
  intros Hin Hrel Hn st. unfold peripheral_register_realize_callback.
  destruct (object_child_foreach (bitfields state) _ validate_tmp0) as [vt|e|f];
    try discriminate.
  set (reg := realize_masks default state parent vt).
  destruct (object_child_foreach (bitfields reg) _ auto_tmp0) as [at'|e|f] eqn:W;
    try discriminate.
  exfalso. apply object_child_foreach_done in W.
  rewrite Forall_forall in W.
  destruct (W bifi (proj2 (list_elem_of_In _ _) Hin)) as [t1 [t2 E]].
  destruct Hrel as [Hf|[Hf Hc]].
  - rewrite (follows_missing_rejected reg bifi t1 t Hf Hn) in E. discriminate E.
  - rewrite (cleared_by_missing_rejected reg bifi t1 t Hf Hc Hn) in E. discriminate E.
Qed.

Example follows_missing_reg_rejected :
  exists st,
    hw_realize follows_missing_reg le_periph
    = Rejected (ErrFollowsMissing "B" "R" (Some "nowhere"%string)) st
    /\ error_message (ErrFollowsMissing "B" "R" (Some "nowhere"%string))
       = ("Bitfield B of register R follows missing nowhere bitfield." ++ newline)%string.
Proof. eexists. split; reflexivity. Qed.

Example cleared_by_missing_reg_rejected :
  exists st,
    hw_realize cleared_by_missing_reg le_periph
    = Rejected (ErrClearedByMissing "D" "R" (Some "nowhere"%string)) st.
Proof. eexists. reflexivity. Qed.

(** C7, at the failing input.  For [set_by_missing_reg], whose only child T
    declares [set_by] a name no child has, realize does not reject the
    register with the error that names the missing target: the search runs
    on the null [cleared_by] of T and ends in a null dereference. *)
Theorem set_by_missing_not_reported :
  Forall (fun c => bf_name c <> "nowhere"%string) (bitfields set_by_missing_reg)
  /\ hw_realize set_by_missing_reg le_periph = Crashed NullDereference
  /\ (forall st, hw_realize set_by_missing_reg le_periph
                 <> Rejected (ErrSetByMissing "T" "R" (Some "nowhere"%string)) st).
Proof.
  split; [|split].
  - repeat constructor. discriminate.
  - reflexivity.
  - intros st. discriminate.
Qed.

(** * Further properties of the callbacks *)

(** ** The byte codec *)

Lemma index_ok_range (ix : Z) : index_ok ix = true <-> 0 <= ix < 8.
Proof.
  unfold index_ok. rewrite andb_true_iff, Z.leb_le, Z.ltb_lt. reflexivity.
Qed.

Lemma indices_ok_range (dst_ix src_ix : Z -> Z) (n : nat) : forall i,
  indices_ok (copy_indices dst_ix src_ix n i) = true ->
  forall a, i <= a < i + Z.of_nat n -> 0 <= dst_ix a < 8 /\ 0 <= src_ix a < 8.
Proof.
  induction n as [|n IH]; intros i Hok a Ha; [lia|].
  unfold indices_ok in Hok. cbn [copy_indices forallb fst snd] in Hok.
  apply andb_true_iff in Hok. destruct Hok as [Hh Ht].
  apply andb_true_iff in Hh. destruct Hh as [Hd Hs].
  destruct (Z.eq_dec a i) as [->|Hne].
  - split; apply index_ok_range; assumption.
  - apply (IH (i + 1) Ht). lia.
Qed.

Lemma copy_bytes_indices_ok (dst_ix src_ix : Z -> Z) (src : list Z) (n : nat) i dst dst' :
  copy_bytes dst_ix src_ix src n i dst = Done dst' ->
  indices_ok (copy_indices dst_ix src_ix n i) = true.
Proof.
  intros H. destruct (indices_ok (copy_indices dst_ix src_ix n i)) eqn:E; [reflexivity|].
  rewrite (copy_bytes_fault dst_ix src_ix src n i dst E) in H. discriminate H.
Qed.

(** What the loop leaves in the destination. *)
Lemma copy_bytes_lookup (dst_ix src_ix : Z -> Z) (src : list Z) (n : nat) :
  forall i dst dst',
  copy_bytes dst_ix src_ix src n i dst = Done dst' ->
  length dst = 8%nat ->
  (forall a b, i <= a < b -> b < i + Z.of_nat n -> dst_ix a <> dst_ix b) ->
  (forall a, i <= a < i + Z.of_nat n ->
             dst' !! Z.to_nat (dst_ix a) = src !! Z.to_nat (src_ix a))
  /\ (forall j, (forall a, i <= a < i + Z.of_nat n -> Z.to_nat (dst_ix a) <> j) ->
                dst' !! j = dst !! j).
Proof.
  induction n as [|n IH]; intros i dst dst' H Hlen Hinj.
  - cbn in H. injection H as <-. split; [lia|reflexivity].
  - pose proof (copy_bytes_indices_ok _ _ _ _ _ _ _ H) as Hok.
    pose proof (indices_ok_range _ _ _ _ Hok) as Hr.
    cbn [copy_bytes] in H. unfold b_get, b_set in H.
    destruct (Hr i ltac:(lia)) as [Hdi Hsi].
    fold (index_ok (src_ix i)) in H. fold (index_ok (dst_ix i)) in H.
    rewrite (proj2 (index_ok_range _) Hsi), (proj2 (index_ok_range _) Hdi) in H.
    destruct (src !! Z.to_nat (src_ix i)) as [x|] eqn:Ex; [|discriminate H].
    destruct (IH (i + 1) _ _ H) as [IH1 IH2].
    { rewrite length_insert. exact Hlen. }
    { intros a b Hab Hb. apply Hinj; lia. }
    split.
    + intros a Ha. destruct (Z.eq_dec a i) as [->|Hne].
      * rewrite IH2.
        -- rewrite list_lookup_insert_eq by lia. symmetry. exact Ex.
        -- intros a Ha' E. apply (Hinj i a); [lia|lia|].
           destruct (Hr a ltac:(lia)) as [Hda _]. lia.
      * apply IH1. lia.
    + intros j Hj. rewrite IH2.
      * apply list_lookup_insert_ne. apply Hj. lia.
      * intros a Ha. apply Hj. lia.
Qed.

Lemma union_b_lookup (v : Z) (k : nat) :
  (k < 8)%nat -> union_b v !! k = Some (byte_of v (Z.of_nat k)).
Proof.
  intros Hk. do 8 (destruct k as [|k]; [reflexivity|]). lia.
Qed.

Lemma byte_of_range (v k : Z) : 0 <= byte_of v k < 256.
Proof.
  unfold byte_of. change 255 with (Z.ones 8). rewrite Z.land_ones by lia.
  apply Z.mod_pos_bound. lia.
Qed.

Lemma lor_range (n a b : Z) :
  0 <= n -> 0 <= a < 2 ^ n -> 0 <= b < 2 ^ n -> 0 <= Z.lor a b < 2 ^ n.
Proof.
  intros Hn Ha Hb.
  assert (E : Z.lor a b = Z.lor a b mod 2 ^ n).
  { apply Z.bits_inj'. intros i Hi. rewrite Z.testbit_mod_pow2 by lia.
    destruct (Z.ltb_spec i n); [reflexivity|].
    rewrite Z.lor_spec.
    rewrite <- (Z.mod_small a (2 ^ n)), <- (Z.mod_small b (2 ^ n)) by lia.
    rewrite !Z.mod_pow2_bits_high by lia. reflexivity. }
  rewrite E. apply Z.mod_pos_bound. lia.
Qed.

Lemma union_ll_range (l : list Z) :
  Forall (fun b => 0 <= b < 256) l -> 0 <= union_ll l < 2 ^ (8 * Z.of_nat (length l)).
Proof.
  induction l as [|x r IH]; intros H; cbn [union_ll length].
  - cbn. lia.
  - apply Forall_cons in H. destruct H as [Hx Hr]. specialize (IH Hr).
    replace (8 * Z.of_nat (S (length r))) with (8 * Z.of_nat (length r) + 8) by lia.
    assert (P : 0 < 2 ^ (8 * Z.of_nat (length r))) by (apply Z.pow_pos_nonneg; lia).
    apply lor_range; [lia| |].
    + rewrite Z.pow_add_r by lia. change (2 ^ 8) with 256. nia.
    + rewrite Z.shiftl_mul_pow2, Z.pow_add_r by lia. nia.
Qed.

Lemma byte_of_union_ll (l : list Z) :
  Forall (fun b => 0 <= b < 256) l ->
  forall k : nat, byte_of (union_ll l) (Z.of_nat k) = default 0 (l !! k).
Proof.
  induction l as [|x r IH]; intros H k; cbn [union_ll].
  - unfold byte_of. rewrite Z.shiftr_0_l. destruct k; reflexivity.
  - apply Forall_cons in H. destruct H as [Hx Hr].
    assert (Hxh : forall i, 8 <= i -> Z.testbit x i = false).
    { intros i Hi. rewrite <- (Z.mod_small x (2 ^ 8)) by lia.
      apply Z.mod_pow2_bits_high. lia. }
    destruct k as [|k].
    + change (default 0 ((x :: r) !! 0%nat)) with x.
      unfold byte_of. change 255 with (Z.ones 8). change (8 * Z.of_nat 0) with 0.
      rewrite Z.shiftr_0_r. apply Z.bits_inj'. intros i Hi.
      rewrite Z.land_spec, Z.lor_spec, Z.testbit_ones_nonneg by lia.
      destruct (Z.ltb_spec i 8).
      * rewrite Z.shiftl_spec_low by lia. btauto.
      * rewrite Hxh by lia. btauto.
    + change ((x :: r) !! S k) with (r !! k). rewrite <- (IH Hr k). unfold byte_of.
      change 255 with (Z.ones 8).
      apply Z.bits_inj'. intros i Hi.
      rewrite !Z.land_spec, !Z.shiftr_spec, Z.lor_spec, Z.shiftl_spec by lia.
      rewrite Hxh by lia.
      replace (i + 8 * Z.of_nat (S k) - 8) with (i + 8 * Z.of_nat k) by lia.
      reflexivity.
Qed.

Lemma indices_ok_intro (dst_ix src_ix : Z -> Z) (n : nat) : forall i,
  (forall a, i <= a < i + Z.of_nat n -> 0 <= dst_ix a < 8 /\ 0 <= src_ix a < 8) ->
  indices_ok (copy_indices dst_ix src_ix n i) = true.
Proof.
  induction n as [|n IH]; intros i H; [reflexivity|].
  unfold indices_ok. cbn [copy_indices forallb fst snd].
  destruct (H i ltac:(lia)) as [Hd Hs].
  rewrite (proj2 (index_ok_range _) Hd), (proj2 (index_ok_range _) Hs).
  cbn [andb]. apply IH. intros a Ha. apply H. lia.
Qed.

Lemma union_b_bytes (v : Z) : Forall (fun b => 0 <= b < 256) (union_b v).
Proof.
  unfold union_b. cbn [map]. repeat constructor; apply byte_of_range.
Qed.

Lemma copy_bytes_bytes (dst_ix src_ix : Z -> Z) (src : list Z) (n : nat) :
  Forall (fun b => 0 <= b < 256) src ->
  forall i dst dst',
  Forall (fun b => 0 <= b < 256) dst ->
  copy_bytes dst_ix src_ix src n i dst = Done dst' ->
  Forall (fun b => 0 <= b < 256) dst'.
Proof.
  intros Hsrc. induction n as [|n IH]; intros i dst dst' Hdst H; cbn [copy_bytes] in H.
  - injection H as <-. exact Hdst.
  - unfold b_get, b_set in H.
    destruct ((0 <=? src_ix i) && (src_ix i <? 8)); [|discriminate H].
    destruct (src !! Z.to_nat (src_ix i)) as [x|] eqn:Ex; [|discriminate H].
    destruct ((0 <=? dst_ix i) && (dst_ix i <? 8)); [|discriminate H].
    apply (IH _ _ _ (Forall_insert _ _ _ _ Hdst (proj1 (Forall_lookup _ _) Hsrc _ _ Ex)) H).
Qed.

(** The bytes of a 64-bit value determine it. *)
Lemma bytes_ext (a b : Z) :
  0 <= a < 2 ^ 64 -> 0 <= b < 2 ^ 64 ->
  (forall k, 0 <= k < 8 -> byte_of a k = byte_of b k) -> a = b.
Proof.
  intros Ha Hb H. apply Z.bits_inj'. intros i Hi.
  destruct (Z.ltb_spec i 64) as [L|L].
  - assert (Hk : 0 <= i / 8 < 8).
    { split; [apply Z.div_pos; lia|apply Z.div_lt_upper_bound; lia]. }
    specialize (H (i / 8) Hk). unfold byte_of in H.
    apply (f_equal (fun z => Z.testbit z (i mod 8))) in H.
    pose proof (Z.mod_pos_bound i 8 ltac:(lia)) as Hm.
    rewrite !Z.land_spec, !Z.shiftr_spec in H by lia.
    replace (i mod 8 + 8 * (i / 8)) with i in H by (rewrite (Z.div_mod i 8) at 1; lia).
    change 255 with (Z.ones 8) in H. rewrite Z.testbit_ones_nonneg in H by lia.
    destruct (Z.ltb_spec (i mod 8) 8); [|lia]. rewrite !andb_true_r in H. exact H.
  - rewrite !uint64_high_bits by assumption. reflexivity.
Qed.

Lemma byte_of_high (v k : Z) : 0 <= v < 2 ^ 64 -> 8 <= k -> byte_of v k = 0.
Proof.
  intros Hv Hk. unfold byte_of. apply Z.bits_inj'. intros i Hi.
  rewrite Z.land_spec, Z.shiftr_spec, Z.bits_0 by lia.
  rewrite uint64_high_bits by (assumption || lia). reflexivity.
Qed.

(** The generic form of the two byte loops of the write callback. *)
Lemma merge_loop (g : Z -> Z) (in_val v : Z) (n : nat) :
  (forall a, 0 <= a < Z.of_nat n -> 0 <= a < 8 /\ 0 <= g a < 8) ->
  (forall a b, 0 <= a < b -> b < Z.of_nat n -> g a <> g b) ->
  exists dst',
    copy_bytes g host_index (union_b in_val) n 0 (union_b v) = Done dst'
    /\ 0 <= union_ll dst' < 2 ^ 64
    /\ (forall a, 0 <= a < Z.of_nat n -> byte_of (union_ll dst') (g a) = byte_of in_val a)
    /\ (forall k, 0 <= k < 8 -> (forall a, 0 <= a < Z.of_nat n -> g a <> k) ->
                  byte_of (union_ll dst') k = byte_of v k).
Proof.
  intros Hr Hinj.
  destruct (copy_bytes_done g host_index (union_b in_val) n 0 (union_b v)
              (union_b_length _)) as [dst' E].
  { apply indices_ok_intro. intros a Ha. unfold host_index.
    destruct (Hr a ltac:(lia)). lia. }
  exists dst'. split; [exact E|].
  pose proof (copy_bytes_bytes _ _ _ _ (union_b_bytes in_val) _ _ _ (union_b_bytes v) E) as Hb.
  pose proof (copy_bytes_length _ _ _ _ _ _ _ E) as Hl. rewrite union_b_length in Hl.
  destruct (copy_bytes_lookup _ _ _ _ _ _ _ E (union_b_length _)) as [L1 L2].
  { intros a b Hab Hb'. apply Hinj; lia. }
  split; [|split].
  - pose proof (union_ll_range dst' Hb) as R. rewrite Hl in R. exact R.
  - intros a Ha. destruct (Hr a Ha) as [Ha8 Hg].
    rewrite <- (Z2Nat.id (g a)) at 1 by lia.
    rewrite (byte_of_union_ll _ Hb), (L1 a ltac:(lia)). unfold host_index.
    rewrite union_b_lookup by lia. cbn [default]. rewrite Z2Nat.id by lia. reflexivity.
  - intros k Hk Hne.
    rewrite <- (Z2Nat.id k) at 1 by lia.
    rewrite (byte_of_union_ll _ Hb), L2.
    + rewrite union_b_lookup by lia. cbn [default]. rewrite Z2Nat.id by lia. reflexivity.
    + intros a Ha E'. apply (Hne a ltac:(lia)).
      destruct (Hr a ltac:(lia)). lia.
Qed.

Lemma extract_loop (g : Z -> Z) (v : Z) (n : nat) :
  (forall a, 0 <= a < Z.of_nat n -> 0 <= a < 8 /\ 0 <= g a < 8) ->
  exists dst',
    copy_bytes host_index g (union_b v) n 0 (union_b 0) = Done dst'
    /\ 0 <= union_ll dst' < 2 ^ 64
    /\ (forall a, 0 <= a < Z.of_nat n -> byte_of (union_ll dst') a = byte_of v (g a))
    /\ (forall k, Z.of_nat n <= k < 8 -> byte_of (union_ll dst') k = 0).
Proof.
  intros Hr.
  destruct (copy_bytes_done host_index g (union_b v) n 0 (union_b 0)
              (union_b_length _)) as [dst' E].
  { apply indices_ok_intro. intros a Ha. unfold host_index.
    destruct (Hr a ltac:(lia)). lia. }
  exists dst'. split; [exact E|].
  pose proof (copy_bytes_bytes _ _ _ _ (union_b_bytes v) _ _ _ (union_b_bytes 0) E) as Hb.
  pose proof (copy_bytes_length _ _ _ _ _ _ _ E) as Hl. rewrite union_b_length in Hl.
  destruct (copy_bytes_lookup _ _ _ _ _ _ _ E (union_b_length _)) as [L1 L2].
  { intros a b Hab Hb'. unfold host_index. lia. }
  split; [|split].
  - pose proof (union_ll_range dst' Hb) as R. rewrite Hl in R. exact R.
  - intros a Ha. destruct (Hr a Ha) as [Ha8 Hg].
    rewrite <- (Z2Nat.id a) at 1 by lia.
    rewrite (byte_of_union_ll _ Hb). specialize (L1 a ltac:(lia)).
    unfold host_index in L1. rewrite L1.
    rewrite union_b_lookup by lia. cbn [default]. rewrite Z2Nat.id by lia. reflexivity.
  - intros k Hk.
    rewrite <- (Z2Nat.id k) at 1 by lia.
    rewrite (byte_of_union_ll _ Hb), L2.
    + rewrite union_b_lookup by lia. cbn [default]. unfold byte_of.
      rewrite Z.shiftr_0_l. reflexivity.
    + intros a Ha. unfold host_index. lia.
Qed.

Lemma le_index_small (offset a : Z) :
  0 <= offset -> 0 <= a -> a + offset <= 8 -> le_index offset a = a + offset.
Proof. intros. unfold le_index, u32. apply Z.mod_small. lia. Qed.

Lemma be_index_small (offset a : Z) :
  0 <= offset -> 0 <= a -> a + offset <= 8 -> be_index offset a = 8 - (a + offset).
Proof.
  intros. unfold be_index, u32. rewrite (Z.mod_small (a + offset)) by lia.
  apply Z.mod_small. lia.
Qed.

(** X1. On a little-endian guest, a write without rules whose bytes stay
    inside the storage completes and commits the stored value merged, under
    the writable mask, with a value whose byte [k] is byte [k - offset] of
    the incoming value for [offset <= k < offset + size] and byte [k] of the
    stored value elsewhere. *)
Theorem write_little_endian_bytes (shl_ub shr_ub : Z -> Z -> Z)
    (state : PeripheralRegisterState) (periph : PeripheralState)
    (addr offset size in_val : Z) :
  is_little_endian periph = true ->
  auto_bits state = [] ->
  0 <= offset -> 0 <= size -> offset + size <= 8 ->
  exists new_value,
    peripheral_register_write_callback shl_ub shr_ub state periph addr offset size in_val
      = Done (set_value state (merge_writable state new_value))
    /\ 0 <= new_value < 2 ^ 64
    /\ forall k, 0 <= k < 8 ->
         byte_of new_value k
         = if (offset <=? k) && (k <? offset + size)
           then byte_of in_val (k - offset) else byte_of (value state) k.
Proof.
  intros Hle Hab Ho Hs Hb.
  unfold peripheral_register_write_callback, merged_value. rewrite Hle, Hab.
  destruct (merge_loop (le_index offset) in_val (value state) (Z.to_nat size))
    as [dst' [E [R [B1 B2]]]].
  { intros a Ha. rewrite le_index_small by lia. lia. }
  { intros a b Hab' Hb'. rewrite !le_index_small by lia. lia. }
  rewrite E. cbn [bind run_auto_bits]. exists (union_ll dst').
  split; [reflexivity|]. split; [exact R|].
  intros k Hk.
  destruct (Z.leb_spec offset k) as [L1|L1]; destruct (Z.ltb_spec k (offset + size)) as [L2|L2];
    cbn [andb].
  - rewrite <- (B1 (k - offset)) by lia. rewrite le_index_small by lia.
    f_equal. lia.
  - apply B2; [lia|]. intros a Ha. rewrite le_index_small by lia. lia.
  - apply B2; [lia|]. intros a Ha. rewrite le_index_small by lia. lia.
  - apply B2; [lia|]. intros a Ha. rewrite le_index_small by lia. lia.
Qed.

(** X2. On a little-endian guest, a read whose bytes stay inside the storage
    completes: byte [k] of the result is byte [k + offset] of
    [value & readable_bits] for [k < size], and zero above. *)
Theorem read_little_endian_bytes (state : PeripheralRegisterState)
    (periph : PeripheralState) (addr offset size : Z) :
  is_little_endian periph = true ->
  0 <= offset -> 0 <= size -> offset + size <= 8 ->
  exists result,
    peripheral_register_read_callback state periph addr offset size = Done result
    /\ 0 <= result < 2 ^ 64
    /\ forall k, 0 <= k < 8 ->
         byte_of result k
         = if k <? size
           then byte_of (peripheral_register_get_value state) (k + offset) else 0.
Proof.
  intros Hle Ho Hs Hb.
  unfold peripheral_register_read_callback, peripheral_register_get_value. rewrite Hle.
  destruct (extract_loop (le_index offset) (Z.land (value state) (readable_bits state))
              (Z.to_nat size)) as [dst' [E [R [B1 B2]]]].
  { intros a Ha. rewrite le_index_small by lia. lia. }
  rewrite E. cbn [bind]. exists (union_ll dst').
  split; [reflexivity|]. split; [exact R|].
  intros k Hk. destruct (Z.ltb_spec k size) as [L|L].
  - rewrite B1 by lia. rewrite le_index_small by lia. reflexivity.
  - apply B2. lia.
Qed.

(** X3. On a big-endian guest, host byte [i] of an access at offset
    [offset >= 1] with [offset + size <= 9] is register byte
    [8 - (i + offset)]: the write replaces bytes [9 - offset - size] to
    [8 - offset] in reverse order, and the read returns them in that order. *)
Theorem big_endian_guest_bytes (shl_ub shr_ub : Z -> Z -> Z)
    (state : PeripheralRegisterState) (periph : PeripheralState)
    (addr offset size in_val : Z) :
  is_little_endian periph = false ->
  1 <= offset -> 0 <= size -> offset + size <= 9 ->
  (auto_bits state = [] ->
   exists new_value,
     peripheral_register_write_callback shl_ub shr_ub state periph addr offset size in_val
       = Done (set_value state (merge_writable state new_value))
     /\ 0 <= new_value < 2 ^ 64
     /\ forall k, 0 <= k < 8 ->
          byte_of new_value k
          = if (8 - offset - size <? k) && (k <=? 8 - offset)
            then byte_of in_val (8 - offset - k) else byte_of (value state) k)
  /\ exists result,
       peripheral_register_read_callback state periph addr offset size = Done result
       /\ 0 <= result < 2 ^ 64
       /\ forall k, 0 <= k < 8 ->
            byte_of result k
            = if k <? size
              then byte_of (peripheral_register_get_value state) (8 - (k + offset))
              else 0.
Proof.
  intros Hbe Ho Hs Hb. split.
  - intros Hab.
    unfold peripheral_register_write_callback, merged_value. rewrite Hbe, Hab.
    destruct (merge_loop (be_index offset) in_val (value state) (Z.to_nat size))
      as [dst' [E [R [B1 B2]]]].
    { intros a Ha. rewrite be_index_small by lia. lia. }
    { intros a b Hab' Hb'. rewrite !be_index_small by lia. lia. }
    rewrite E. cbn [bind run_auto_bits]. exists (union_ll dst').
    split; [reflexivity|]. split; [exact R|].
    intros k Hk.
    destruct (Z.ltb_spec (8 - offset - size) k) as [L1|L1];
      destruct (Z.leb_spec k (8 - offset)) as [L2|L2]; cbn [andb].
    + rewrite <- (B1 (8 - offset - k)) by lia. rewrite be_index_small by lia.
      f_equal. lia.
    + apply B2; [lia|]. intros a Ha. rewrite be_index_small by lia. lia.
    + apply B2; [lia|]. intros a Ha. rewrite be_index_small by lia. lia.
    + apply B2; [lia|]. intros a Ha. rewrite be_index_small by lia. lia.
  - unfold peripheral_register_read_callback, peripheral_register_get_value. rewrite Hbe.
    destruct (extract_loop (be_index offset) (Z.land (value state) (readable_bits state))
                (Z.to_nat size)) as [dst' [E [R [B1 B2]]]].
    { intros a Ha. rewrite be_index_small by lia. lia. }
    rewrite E. cbn [bind]. exists (union_ll dst').
    split; [reflexivity|]. split; [exact R|].
    intros k Hk. destruct (Z.ltb_spec k size) as [L|L].
    + rewrite B1 by lia. rewrite be_index_small by lia. reflexivity.
    + apply B2. lia.
Qed.

Lemma byte_of_low_bytes (v n k : Z) :
  0 <= n -> 0 <= k ->
  byte_of (Z.land v (Z.ones (8 * n))) k = if k <? n then byte_of v k else 0.
Proof.
  intros Hn Hk. unfold byte_of. change 255 with (Z.ones 8).
  apply Z.bits_inj'. intros i Hi.
  rewrite !Z.land_spec, Z.shiftr_spec, Z.land_spec by lia.
  rewrite !Z.testbit_ones_nonneg by lia.
  destruct (Z.ltb_spec k n) as [L|L].
  - rewrite Z.land_spec, Z.shiftr_spec, Z.testbit_ones_nonneg by lia.
    destruct (Z.ltb_spec i 8); [|btauto].
    destruct (Z.ltb_spec (i + 8 * k) (8 * n)); [btauto|lia].
  - rewrite Z.bits_0.
    destruct (Z.ltb_spec i 8); [|btauto].
    destruct (Z.ltb_spec (i + 8 * k) (8 * n)); [lia|btauto].
Qed.

Lemma merge_writable_all (state : PeripheralRegisterState) (new_value : Z) :
  writable_bits state = UINT64_MAX -> 0 <= new_value < 2 ^ 64 ->
  merge_writable state new_value = new_value.
Proof.
  intros Hw Hn. unfold merge_writable. rewrite Hw.
  change (not64 UINT64_MAX) with 0. rewrite Z.land_0_r, Z.lor_0_l.
  change UINT64_MAX with (Z.ones 64). apply wrap64_small. exact Hn.
Qed.

(** X4. With all bits readable and writable and no rule, a write followed by
    a read at the same offset and size, on either guest byte order, returns
    the low [size] bytes of the value written. *)
Theorem write_then_read_round_trip (shl_ub shr_ub : Z -> Z -> Z)
    (state : PeripheralRegisterState) (periph : PeripheralState)
    (addr offset size in_val : Z) :
  auto_bits state = [] ->
  writable_bits state = UINT64_MAX ->
  readable_bits state = UINT64_MAX ->
  access_in_bounds periph offset size ->
  exists state',
    peripheral_register_write_callback shl_ub shr_ub state periph addr offset size in_val
      = Done state'
    /\ peripheral_register_read_callback state' periph addr offset size
       = Done (Z.land in_val (Z.ones (8 * size))).
Proof.
  intros Hab Hw Hrd [Ho [Hs Hb]].
  set (g := if is_little_endian periph then le_index offset else be_index offset).
  assert (Hs8 : size <= 8) by (destruct Hb as [->|Hb]; [lia|destruct (is_little_endian periph); lia]).
  assert (Hg : forall a, 0 <= a < Z.of_nat (Z.to_nat size) -> 0 <= a < 8 /\ 0 <= g a < 8).
  { intros a Ha. destruct Hb as [->|Hb]; [lia|].
    unfold g. destruct (is_little_endian periph).
    - rewrite le_index_small by lia. lia.
    - rewrite be_index_small by lia. lia. }
  assert (Hinj : forall a b, 0 <= a < b -> b < Z.of_nat (Z.to_nat size) -> g a <> g b).
  { intros a b Hab' Hb'. destruct Hb as [->|Hb]; [lia|].
    unfold g. destruct (is_little_endian periph).
    - rewrite !le_index_small by lia. lia.
    - rewrite !be_index_small by lia. lia. }
  destruct (merge_loop g in_val (value state) (Z.to_nat size) Hg Hinj)
    as [d1 [E1 [R1 [B1 _]]]].
  destruct (extract_loop g (union_ll d1) (Z.to_nat size) Hg) as [d2 [E2 [R2 [C1 C2]]]].
  exists (set_value state (union_ll d1)). split.
  - unfold peripheral_register_write_callback, merged_value. rewrite Hab.
    replace (if is_little_endian periph
             then copy_bytes (le_index offset) host_index (union_b in_val)
                    (Z.to_nat size) 0 (union_b (value state))
             else copy_bytes (be_index offset) host_index (union_b in_val)
                    (Z.to_nat size) 0 (union_b (value state)))
      with (Done d1) by (rewrite <- E1; unfold g; destruct (is_little_endian periph); reflexivity).
    cbn [bind run_auto_bits]. rewrite merge_writable_all by assumption. reflexivity.
  - unfold peripheral_register_read_callback. cbn [value readable_bits set_value].
    rewrite Hrd. change UINT64_MAX with (Z.ones 64).
    fold (wrap64 (union_ll d1)). rewrite wrap64_small by exact R1.
    replace (if is_little_endian periph
             then copy_bytes host_index (le_index offset) (union_b (union_ll d1))
                    (Z.to_nat size) 0 (union_b 0)
             else copy_bytes host_index (be_index offset) (union_b (union_ll d1))
                    (Z.to_nat size) 0 (union_b 0))
      with (Done d2) by (rewrite <- E2; unfold g; destruct (is_little_endian periph); reflexivity).
    cbn [bind]. f_equal. apply bytes_ext.
    + exact R2.
    + rewrite Z.land_ones by lia.
      assert (P : 0 < 2 ^ (8 * size)) by (apply Z.pow_pos_nonneg; lia).
      pose proof (Z.mod_pos_bound in_val (2 ^ (8 * size)) P) as M.
      assert (2 ^ (8 * size) <= 2 ^ 64) by (apply Z.pow_le_mono_r; lia). lia.
    + intros k Hk. rewrite byte_of_low_bytes by lia.
      destruct (Z.ltb_spec k size) as [L|L].
      * rewrite C1 by lia. apply B1. lia.
      * apply C2. lia.
Qed.

Lemma in_bounds_indices (periph : PeripheralState) (offset size : Z) :
  access_in_bounds periph offset size ->
  forall a, 0 <= a < Z.of_nat (Z.to_nat size) ->
            0 <= a < 8 /\ 0 <= guest_index periph offset a < 8.
Proof.
  intros [Ho [Hs Hb]] a Ha. destruct Hb as [->|Hb]; [lia|].
  unfold guest_index. destruct (is_little_endian periph).
  - rewrite le_index_small by lia. lia.
  - rewrite be_index_small by lia. lia.
Qed.

Lemma out_of_bounds_index (periph : PeripheralState) (offset size : Z) :
  0 <= offset < 2 ^ 32 -> 0 <= size ->
  ~ access_in_bounds periph offset size ->
  exists a, 0 <= a < size /\ ~ (0 <= guest_index periph offset a < 8).
Proof.
  intros Ho Hs Hn. unfold access_in_bounds in Hn. unfold guest_index.
  change (2 ^ 32) with 4294967296 in Ho.
  destruct (is_little_endian periph).
  - assert (H : size <> 0 /\ 8 < offset + size) by lia. clear Hn.
    destruct (Z_lt_le_dec offset 8) as [L|L].
    + exists (8 - offset). split; [lia|]. rewrite le_index_small by lia. lia.
    + exists 0. split; [lia|]. unfold le_index, u32.
      change (2 ^ 32) with 4294967296. rewrite Z.mod_small; lia.
  - assert (H : size <> 0 /\ (offset < 1 \/ 9 < offset + size)) by lia. clear Hn.
    unfold be_index, u32. change (2 ^ 32) with 4294967296.
    destruct (Z_lt_le_dec offset 1) as [L0|L0].
    + exists 0. split; [lia|]. intros C. Z.div_mod_to_equations. lia.
    + destruct (Z_lt_le_dec offset 9) as [L|L].
      * exists (9 - offset). split; [lia|].
        replace (9 - offset + offset) with 9 by lia.
        intros C. Z.div_mod_to_equations. lia.
      * exists 0. split; [lia|]. rewrite (Z.mod_small (0 + offset)) by lia.
        intros C. Z.div_mod_to_equations. lia.
Qed.

Lemma out_of_bounds_indices_not_ok (dst_ix src_ix : Z -> Z) (n : nat) (a : Z) :
  0 <= a < Z.of_nat n ->
  ~ (0 <= dst_ix a < 8) \/ ~ (0 <= src_ix a < 8) ->
  indices_ok (copy_indices dst_ix src_ix n 0) = false.
Proof.
  intros Ha Hbad.
  destruct (indices_ok (copy_indices dst_ix src_ix n 0)) eqn:E; [|reflexivity].
  destruct (indices_ok_range _ _ _ _ E a ltac:(lia)) as [Hd Hs]. tauto.
Qed.

(** X5. The callbacks carry no bounds check: an access completes when the
    indices of its byte loop stay inside the eight bytes
    ([access_in_bounds]), and it indexes outside the array otherwise, on a
    read and on a write alike. *)
Theorem access_faults_exactly_out_of_bounds (shl_ub shr_ub : Z -> Z -> Z)
    (state : PeripheralRegisterState) (periph : PeripheralState)
    (addr offset size in_val : Z) :
  0 <= offset < 2 ^ 32 -> 0 <= size ->
  (access_in_bounds periph offset size ->
   (exists result, peripheral_register_read_callback state periph addr offset size
                   = Done result)
   /\ (exists state', peripheral_register_write_callback shl_ub shr_ub state periph
                        addr offset size in_val = Done state'))
  /\ (~ access_in_bounds periph offset size ->
      peripheral_register_read_callback state periph addr offset size
      = Fault OutOfBounds
      /\ peripheral_register_write_callback shl_ub shr_ub state periph
           addr offset size in_val = Fault OutOfBounds).
Proof.
  intros Ho Hs. split.
  - intros Hin. pose proof (in_bounds_indices periph offset size Hin) as Hg.
    unfold guest_index in Hg. split.
    + unfold peripheral_register_read_callback.
      destruct (is_little_endian periph).
      * destruct (copy_bytes_done host_index (le_index offset)
                    (union_b (Z.land (value state) (readable_bits state)))
                    (Z.to_nat size) 0 (union_b 0) (union_b_length _)) as [d E].
        { apply indices_ok_intro. intros a Ha. unfold host_index.
          destruct (Hg a ltac:(lia)). lia. }
        rewrite E. eexists. reflexivity.
      * destruct (copy_bytes_done host_index (be_index offset)
                    (union_b (Z.land (value state) (readable_bits state)))
                    (Z.to_nat size) 0 (union_b 0) (union_b_length _)) as [d E].
        { apply indices_ok_intro. intros a Ha. unfold host_index.
          destruct (Hg a ltac:(lia)). lia. }
        rewrite E. eexists. reflexivity.
    + unfold peripheral_register_write_callback, merged_value.
      destruct (is_little_endian periph).
      * destruct (copy_bytes_done (le_index offset) host_index (union_b in_val)
                    (Z.to_nat size) 0 (union_b (value state)) (union_b_length _)) as [d E].
        { apply indices_ok_intro. intros a Ha. unfold host_index.
          destruct (Hg a ltac:(lia)). lia. }
        rewrite E. eexists. reflexivity.
      * destruct (copy_bytes_done (be_index offset) host_index (union_b in_val)
                    (Z.to_nat size) 0 (union_b (value state)) (union_b_length _)) as [d E].
        { apply indices_ok_intro. intros a Ha. unfold host_index.
          destruct (Hg a ltac:(lia)). lia. }
        rewrite E. eexists. reflexivity.
  - intros Hout.
    destruct (out_of_bounds_index periph offset size Ho Hs Hout) as [a [Ha Hbad]].
    unfold guest_index in Hbad.
    unfold peripheral_register_read_callback, peripheral_register_write_callback,
      merged_value.
    destruct (is_little_endian periph).
    + rewrite (copy_bytes_fault host_index (le_index offset)),
        (copy_bytes_fault (le_index offset) host_index);
        [split; reflexivity| |];
        apply (out_of_bounds_indices_not_ok _ _ _ a); try lia; tauto.
    + rewrite (copy_bytes_fault host_index (be_index offset)),
        (copy_bytes_fault (be_index offset) host_index);
        [split; reflexivity| |];
        apply (out_of_bounds_indices_not_ok _ _ _ a); try lia; tauto.
Qed.

Lemma in_bounds_write_indices_ok (periph : PeripheralState) (offset size : Z) :
  access_in_bounds periph offset size ->
  indices_ok (write_indices periph offset size) = true.
Proof.
  intros Hin. pose proof (in_bounds_indices periph offset size Hin) as Hg.
  unfold guest_index in Hg. unfold write_indices.
  destruct (is_little_endian periph); apply indices_ok_intro; intros a Ha;
    unfold host_index; destruct (Hg a ltac:(lia)); lia.
Qed.

Lemma land_range (n a b : Z) :
  0 <= n -> 0 <= a < 2 ^ n -> 0 <= Z.land a b < 2 ^ n.
Proof.
  intros Hn Ha.
  assert (E : Z.land a b = Z.land a b mod 2 ^ n).
  { apply Z.bits_inj'. intros i Hi. rewrite Z.testbit_mod_pow2 by lia.
    destruct (Z.ltb_spec i n); [reflexivity|].
    rewrite Z.land_spec. rewrite <- (Z.mod_small a (2 ^ n)) by lia.
    rewrite Z.mod_pow2_bits_high by lia. reflexivity. }
  rewrite E. apply Z.mod_pos_bound. lia.
Qed.

Lemma wrap64_range (x : Z) : 0 <= wrap64 x < 2 ^ 64.
Proof.
  unfold wrap64. rewrite Z.land_ones by lia. apply Z.mod_pos_bound. lia.
Qed.

Lemma merged_value_in_bounds (state : PeripheralRegisterState) (periph : PeripheralState)
    (offset size in_val : Z) :
  access_in_bounds periph offset size ->
  exists new_value,
    merged_value state periph offset size in_val = Done (merge_writable state new_value)
    /\ 0 <= new_value < 2 ^ 64.
Proof.
  intros Hin. pose proof (in_bounds_write_indices_ok _ _ _ Hin) as Hok.
  unfold merged_value, write_indices in *.
  destruct (is_little_endian periph).
  - destruct (copy_bytes_done _ _ (union_b in_val) _ 0 (union_b (value state))
                (union_b_length _) Hok) as [d E].
    rewrite E. exists (union_ll d). split; [reflexivity|].
    pose proof (union_ll_range d (copy_bytes_bytes _ _ _ _ (union_b_bytes in_val) _ _ _
                                    (union_b_bytes (value state)) E)) as R.
    rewrite (copy_bytes_length _ _ _ _ _ _ _ E), union_b_length in R. exact R.
  - destruct (copy_bytes_done _ _ (union_b in_val) _ 0 (union_b (value state))
                (union_b_length _) Hok) as [d E].
    rewrite E. exists (union_ll d). split; [reflexivity|].
    pose proof (union_ll_range d (copy_bytes_bytes _ _ _ _ (union_b_bytes in_val) _ _ _
                                    (union_b_bytes (value state)) E)) as R.
    rewrite (copy_bytes_length _ _ _ _ _ _ _ E), union_b_length in R. exact R.
Qed.

(** X6. A write to a register without rules leaves every bit outside
    [writable_bits] as it was, whatever bytes come in. *)
Theorem write_preserves_non_writable_bits (shl_ub shr_ub : Z -> Z -> Z)
    (state : PeripheralRegisterState) (periph : PeripheralState)
    (addr offset size in_val : Z) :
  auto_bits state = [] ->
  0 <= value state < 2 ^ 64 ->
  access_in_bounds periph offset size ->
  exists v',
    peripheral_register_write_callback shl_ub shr_ub state periph addr offset size in_val
      = Done (set_value state v')
    /\ Z.ldiff v' (writable_bits state) = Z.ldiff (value state) (writable_bits state).
Proof.
  intros Hab Hv Hin.
  destruct (merged_value_in_bounds state periph offset size in_val Hin) as [nv [E _]].
  unfold peripheral_register_write_callback. rewrite E, Hab. cbn [bind run_auto_bits].
  eexists. split; [reflexivity|].
  unfold merge_writable. apply Z.bits_inj'. intros i Hi.
  rewrite !Z.ldiff_spec, Z.lor_spec, !Z.land_spec, testbit_not64 by lia.
  destruct (Z.ltb_spec i 64) as [L|L]; [btauto|].
  rewrite (uint64_high_bits _ _ Hv L). btauto.
Qed.

Lemma shl64_range (shl_ub : Z -> Z -> Z) (x n : Z) : 0 <= shl64 shl_ub x n < 2 ^ 64.
Proof. unfold shl64. destruct (_ && _); apply wrap64_range. Qed.

Lemma shr64_range (shr_ub : Z -> Z -> Z) (x n : Z) :
  0 <= x < 2 ^ 64 -> 0 <= shr64 shr_ub x n < 2 ^ 64.
Proof.
  intros Hx. unfold shr64.
  destruct (Z.leb_spec 0 n) as [L|L]; cbn [andb]; [|apply wrap64_range].
  destruct (n <? 64); [|apply wrap64_range].
  rewrite Z.shiftr_div_pow2 by lia.
  assert (P : 0 < 2 ^ n) by (apply Z.pow_pos_nonneg; lia).
  split; [apply Z.div_pos; lia|].
  apply Z.div_lt_upper_bound; [lia|]. nia.
Qed.

Lemma apply_auto_bits_range (shl_ub shr_ub : Z -> Z -> Z)
    (a : PeripheralRegisterAutoBits) (tmp : Z) :
  0 <= tmp < 2 ^ 64 -> 0 <= apply_auto_bits shl_ub shr_ub a tmp < 2 ^ 64.
Proof.
  intros Ht. unfold apply_auto_bits.
  destruct (ab_type a); destruct (0 <? ab_shift a); try destruct (ab_shift a <? 0);
    try exact Ht;
    repeat first
      [ apply lor_range; [lia| |]
      | apply land_range; [lia|]
      | apply shl64_range
      | apply shr64_range
      | exact Ht ].
Qed.

Lemma run_auto_bits_range (shl_ub shr_ub : Z -> Z -> Z)
    (l : list PeripheralRegisterAutoBits) : forall tmp,
  0 <= tmp < 2 ^ 64 -> 0 <= run_auto_bits shl_ub shr_ub l tmp < 2 ^ 64.
Proof.
  induction l as [|a r IH]; intros tmp Ht; cbn [run_auto_bits]; [exact Ht|].
  destruct (ab_mask a =? 0); [exact Ht|].
  apply IH. apply apply_auto_bits_range. exact Ht.
Qed.

(** The stored value stays a 64-bit value across a write, whatever the
    rules and whatever a shift with a count out of range gives. *)
Theorem write_keeps_value_in_64_bits (shl_ub shr_ub : Z -> Z -> Z)
    (state : PeripheralRegisterState) (periph : PeripheralState)
    (addr offset size in_val : Z) :
  0 <= value state < 2 ^ 64 ->
  access_in_bounds periph offset size ->
  exists state',
    peripheral_register_write_callback shl_ub shr_ub state periph addr offset size in_val
      = Done state'
    /\ 0 <= value state' < 2 ^ 64.
Proof.
  intros Hv Hin.
  destruct (merged_value_in_bounds state periph offset size in_val Hin) as [nv [E Hn]].
  unfold peripheral_register_write_callback. rewrite E. cbn [bind].
  eexists. split; [reflexivity|]. cbn [value set_value].
  apply run_auto_bits_range. unfold merge_writable.
  apply lor_range; [lia| |]; apply land_range; (lia || assumption).
Qed.

(** X8. A CLEARED_BY rule with a positive shift works bit by bit: bit [j]
    is cleared exactly when bit [j - shift] is set in the value and in the
    mask; the linked field is not cleared as a whole. *)
Theorem cleared_by_left_shift_bitwise (shl_ub shr_ub : Z -> Z -> Z) (m s tmp j : Z) :
  0 < s < 64 -> 0 <= tmp < 2 ^ 64 -> 0 <= j ->
  Z.testbit (apply_auto_bits shl_ub shr_ub
               {| ab_mask := m; ab_shift := s;
                  ab_type := PERIPHERAL_REGISTER_AUTO_BITS_TYPE_CLEARED_BY |} tmp) j
  = Z.testbit tmp j && negb (Z.testbit tmp (j - s) && Z.testbit m (j - s)).
Proof.
  intros Hs Ht Hj. unfold apply_auto_bits. cbn [ab_mask ab_shift ab_type].
  destruct (Z.ltb_spec 0 s) as [_|]; [|lia].
  unfold shl64. destruct (Z.leb_spec 0 s) as [_|]; [|lia].
  destruct (Z.ltb_spec s 64) as [_|]; [|lia]. cbn [andb].
  rewrite Z.land_spec, testbit_not64, testbit_wrap64, Z.shiftl_spec, Z.land_spec by lia.
  destruct (Z.ltb_spec j 64) as [L|L]; [btauto|].
  rewrite (uint64_high_bits _ _ Ht L). btauto.
Qed.

(** X9. A SET_BY rule with a positive shift works bit by bit: bit [j],
    below 64, is set when bit [j - shift] is set in the value and in the
    mask, and no other bit changes. *)
Theorem set_by_left_shift_bitwise (shl_ub shr_ub : Z -> Z -> Z) (m s tmp j : Z) :
  0 < s < 64 -> 0 <= j ->
  Z.testbit (apply_auto_bits shl_ub shr_ub
               {| ab_mask := m; ab_shift := s;
                  ab_type := PERIPHERAL_REGISTER_AUTO_BITS_TYPE_SET_BY |} tmp) j
  = Z.testbit tmp j
    || (Z.testbit tmp (j - s) && Z.testbit m (j - s) && (j <? 64)).
Proof.
  intros Hs Hj. unfold apply_auto_bits. cbn [ab_mask ab_shift ab_type].
  destruct (Z.ltb_spec 0 s) as [_|]; [|lia].
  unfold shl64. destruct (Z.leb_spec 0 s) as [_|]; [|lia].
  destruct (Z.ltb_spec s 64) as [_|]; [|lia]. cbn [andb].
  rewrite Z.lor_spec, testbit_wrap64, Z.shiftl_spec, Z.land_spec by lia.
  reflexivity.
Qed.

Lemma or_at_slot_zero (arr arr' : list Z) (ix m : Z) :
  0 < ix -> or_at arr ix m = Done arr' -> arr' !! 0%nat = arr !! 0%nat.
Proof.
  intros Hix H. unfold or_at in H.
  destruct ((0 <=? ix) && (ix <? 64)); [|discriminate H].
  injection H as <-. apply list_lookup_alter_ne. lia.
Qed.

Lemma accumulate_slot_zero (bifi found : RegisterBitfieldState) (l r l' r' : list Z) :
  accumulate bifi found l r = Done (l', r') ->
  l' !! 0%nat = l !! 0%nat /\ r' !! 0%nat = r !! 0%nat.
Proof.
  unfold accumulate. intros H.
  destruct (Z.ltb_spec 0 (first_bit bifi - first_bit found)) as [L|L].
  - destruct (or_at l _ _) as [x| |] eqn:E; try discriminate H.
    cbn [bind] in H. injection H as <- <-.
    split; [apply (or_at_slot_zero _ _ _ _ L E)|reflexivity].
  - destruct (Z.ltb_spec (first_bit bifi - first_bit found) 0) as [L'|L'].
    + destruct (or_at r _ _) as [x| |] eqn:E; try discriminate H.
      cbn [bind] in H. injection H as <- <-.
      split; [reflexivity|].
      apply (or_at_slot_zero r _ (- (first_bit bifi - first_bit found)) (bf_mask found));
        [lia|exact E].
    + injection H as <- <-. split; reflexivity.
Qed.

Lemma create_auto_array_slot_zero (reg : PeripheralRegisterState)
    (bifi : RegisterBitfieldState) (t t' : PeripheralRegisterAutoTmp) :
  zero_slots t ->
  peripheral_register_create_auto_array reg bifi t = Done t' ->
  zero_slots t'.
Proof.
  intros Hz H. unfold peripheral_register_create_auto_array in H.
  destruct Hz as [Z1 [Z2 [Z3 [Z4 [Z5 Z6]]]]].
  destruct (follows bifi) as [f|].
  - destruct (find_among_children _ _) as [[found|]| |]; try discriminate H.
    cbn [bind] in H.
    destruct (accumulate _ _ _ _) as [[l r]| |] eqn:E; try discriminate H.
    cbn [bind fst snd] in H. injection H as <-.
    destruct (accumulate_slot_zero _ _ _ _ _ _ E) as [E1 E2].
    unfold zero_slots. cbn. rewrite E1, E2. tauto.
  - destruct (cleared_by bifi) as [c|].
    + destruct (find_among_children _ _) as [[found|]| |]; try discriminate H.
      cbn [bind] in H.
      destruct (accumulate _ _ _ _) as [[l r]| |] eqn:E; try discriminate H.
      cbn [bind fst snd] in H. injection H as <-.
      destruct (accumulate_slot_zero _ _ _ _ _ _ E) as [E1 E2].
      unfold zero_slots. cbn. rewrite E1, E2. tauto.
    + destruct (set_by bifi) as [sb|].
      * destruct (find_among_children _ _) as [[found|]| |]; try discriminate H.
        cbn [bind] in H.
        destruct (accumulate _ _ _ _) as [[l r]| |] eqn:E; try discriminate H.
        cbn [bind fst snd] in H. injection H as <-.
        destruct (accumulate_slot_zero _ _ _ _ _ _ E) as [E1 E2].
        unfold zero_slots. cbn. rewrite E1, E2. tauto.
      * injection H as <-. unfold zero_slots. tauto.
Qed.

Lemma create_auto_array_walk_slot_zero (reg : PeripheralRegisterState) :
  forall children t t',
  zero_slots t ->
  object_child_foreach children (peripheral_register_create_auto_array reg) t = Done t' ->
  zero_slots t'.
Proof.
  induction children as [|b r IH]; intros t t' Hz H; cbn [object_child_foreach] in H.
  - injection H as <-. exact Hz.
  - destruct (peripheral_register_create_auto_array reg b t) as [t1| |] eqn:E;
      try discriminate H.
    cbn [bind] in H. apply (IH t1 t'); [|exact H].
    apply (create_auto_array_slot_zero _ _ _ _ Hz E).
Qed.

Lemma entry_In (arr : list Z) (i : nat) (shift : Z) (type : auto_bits_type)
    (a : PeripheralRegisterAutoBits) :
  In a (entry arr i shift type) ->
  ab_mask a <> 0 /\ ab_shift a = shift /\ arr !! i = Some (ab_mask a).
Proof.
  unfold entry. destruct (arr !! i) as [m|]; [|intros []].
  destruct (Z.eqb_spec m 0) as [|Hm]; [intros []|].
  intros [<-|[]]. cbn. auto.
Qed.

Lemma build_auto_bits_In (t : PeripheralRegisterAutoTmp) (a : PeripheralRegisterAutoBits) :
  zero_slots t ->
  In a (build_auto_bits t) ->
  ab_mask a <> 0 /\ ab_shift a <> 0 /\ -63 <= ab_shift a <= 63.
Proof.
  intros Hz H. unfold build_auto_bits in H. apply in_flat_map in H.
  destruct H as [i [Hi H]]. apply in_seq in Hi.
  destruct Hz as [Z1 [Z2 [Z3 [Z4 [Z5 Z6]]]]].
  unfold entries_at in H.
  repeat (apply in_app_or in H; destruct H as [H|H]);
    apply entry_In in H; destruct H as [Hm [Hs Ha]];
    (split; [exact Hm|]); rewrite Hs;
    (split; [|lia]);
    (destruct i as [|i]; [|lia]);
    congruence.
Qed.

Lemma run_auto_bits_all (shl_ub shr_ub : Z -> Z -> Z)
    (l : list PeripheralRegisterAutoBits) : forall tmp,
  Forall (fun a => ab_mask a <> 0) l ->
  run_auto_bits shl_ub shr_ub l tmp
  = fold_left (fun t a => apply_auto_bits shl_ub shr_ub a t) l tmp.
Proof.
  induction l as [|a r IH]; intros tmp H; [reflexivity|].
  apply Forall_cons in H. destruct H as [Ha Hr]. cbn [run_auto_bits fold_left].
  destruct (Z.eqb_spec (ab_mask a) 0); [contradiction|]. apply IH. exact Hr.
Qed.

(** X10. Every entry of the table realize compiles has a mask that is not
    zero and a shift that is not zero and lies in [-63, 63]; so no entry
    ends the loop of the write callback early, which applies them all in
    order. *)
Theorem compiled_table_entries (shl_ub shr_ub : Z -> Z -> Z) (default : Z)
    (state st : PeripheralRegisterState) (parent : PeripheralState) :
  peripheral_register_realize_callback shl_ub default state parent = Realized st ->
  Forall (fun a => ab_mask a <> 0 /\ ab_shift a <> 0 /\ -63 <= ab_shift a <= 63)
         (auto_bits st)
  /\ forall tmp,
       run_auto_bits shl_ub shr_ub (auto_bits st) tmp
       = fold_left (fun t a => apply_auto_bits shl_ub shr_ub a t) (auto_bits st) tmp.
Proof.
  intros H. unfold peripheral_register_realize_callback in H.
  destruct (object_child_foreach (bitfields state) _ validate_tmp0) as [vt| |];
    try discriminate H.
  destruct (object_child_foreach _ _ auto_tmp0) as [t| |] eqn:W; try discriminate H.
  injection H as <-. cbn [auto_bits set_auto_bits].
  assert (Hz : zero_slots t).
  { eapply create_auto_array_walk_slot_zero; [|exact W].
    repeat split; reflexivity. }
  assert (F : Forall (fun a => ab_mask a <> 0 /\ ab_shift a <> 0 /\ -63 <= ab_shift a <= 63)
                (build_auto_bits t)).
  { apply Forall_forall. intros a Ha. apply list_elem_of_In in Ha.
    apply (build_auto_bits_In t a Hz Ha). }
  split; [exact F|].
  intros tmp. apply run_auto_bits_all.
  eapply Forall_impl; [exact F|]. cbn. tauto.
Qed.

(** ** The validation walk *)

Lemma ldiff_lor_grow (x mask m : Z) :
  Z.ldiff x mask = 0 -> Z.ldiff x (Z.lor mask m) = 0.
Proof.
  intros H. apply Z.bits_inj'. intros i Hi.
  apply (f_equal (fun z => Z.testbit z i)) in H.
  rewrite Z.ldiff_spec, Z.bits_0 in H.
  rewrite Z.ldiff_spec, Z.lor_spec, Z.bits_0.
  destruct (Z.testbit x i), (Z.testbit mask i), (Z.testbit m i); cbn in *; congruence.
Qed.

Lemma ldiff_lor_both (x mask m : Z) :
  Z.ldiff x mask = 0 -> Z.ldiff (Z.lor x m) (Z.lor mask m) = 0.
Proof.
  intros H. apply Z.bits_inj'. intros i Hi.
  apply (f_equal (fun z => Z.testbit z i)) in H.
  rewrite Z.ldiff_spec, Z.bits_0 in H.
  rewrite Z.ldiff_spec, !Z.lor_spec, Z.bits_0.
  destruct (Z.testbit x i), (Z.testbit mask i), (Z.testbit m i); cbn in *; congruence.
Qed.

Lemma validate_step_within_mask (shl_ub : Z -> Z -> Z) (reg : PeripheralRegisterState)
    (bifi : RegisterBitfieldState) (t t' : PeripheralRegisterValidateTmp) :
  within_mask t ->
  peripheral_register_validate_bitfields shl_ub reg bifi t = Done t' ->
  within_mask t'.
Proof.
  intros [Hr [Hw Hv]] H. unfold peripheral_register_validate_bitfields in H.
  destruct (negb _); [discriminate H|]. injection H as <-.
  unfold within_mask. cbn [v_mask v_readable_bits v_writable_bits v_reset_value].
  split; [|split].
  - destruct (bf_is_readable bifi); [apply ldiff_lor_both|apply ldiff_lor_grow]; exact Hr.
  - destruct (bf_is_writable bifi); [apply ldiff_lor_both|apply ldiff_lor_grow]; exact Hw.
  - apply Z.bits_inj'. intros i Hi.
    apply (f_equal (fun z => Z.testbit z i)) in Hv.
    rewrite Z.ldiff_spec, Z.bits_0 in Hv.
    rewrite Z.ldiff_spec, !Z.lor_spec, !Z.land_spec, Z.bits_0.
    destruct (Z.testbit (v_reset_value t) i), (Z.testbit (v_mask t) i),
      (Z.testbit (bf_mask bifi) i); cbn in *; try congruence; btauto.
Qed.

Lemma validate_walk_within_mask (shl_ub : Z -> Z -> Z) (reg : PeripheralRegisterState) :
  forall children t t',
  within_mask t ->
  object_child_foreach children (peripheral_register_validate_bitfields shl_ub reg) t
    = Done t' ->
  within_mask t'.
Proof.
  induction children as [|b r IH]; intros t t' Hz H; cbn [object_child_foreach] in H.
  - injection H as <-. exact Hz.
  - destruct (peripheral_register_validate_bitfields shl_ub reg b t) as [t1| |] eqn:E;
      try discriminate H.
    cbn [bind] in H. apply (IH t1 t'); [|exact H].
    apply (validate_step_within_mask _ _ _ _ _ Hz E).
Qed.

(** X11. When the validation walk completes, the mask it collected is the
    union of the bitfield masks, and the readable bits, the writable bits
    and the composite reset value it collected lie inside that mask. *)
Theorem validation_collects_within_mask (shl_ub : Z -> Z -> Z)
    (reg : PeripheralRegisterState) (children : list RegisterBitfieldState)
    (t : PeripheralRegisterValidateTmp) :
  object_child_foreach children (peripheral_register_validate_bitfields shl_ub reg)
    validate_tmp0 = Done t ->
  v_mask t = union_mask children
  /\ Z.ldiff (v_readable_bits t) (v_mask t) = 0
  /\ Z.ldiff (v_writable_bits t) (v_mask t) = 0
  /\ Z.ldiff (v_reset_value t) (v_mask t) = 0.
Proof.
  intros H. split.
  - pose proof (validate_walk shl_ub reg children validate_tmp0) as W.
    rewrite H in W. destruct W as [_ [_ W]]. exact W.
  - apply (validate_walk_within_mask shl_ub reg children validate_tmp0 t); [|exact H].
    repeat split; reflexivity.
Qed.

(** ** What realize leaves in the state *)

Lemma land_within (x mask : Z) : Z.ldiff x mask = 0 -> Z.land x mask = x.
Proof.
  intros H. apply Z.bits_inj'. intros i Hi.
  apply (f_equal (fun z => Z.testbit z i)) in H.
  rewrite Z.ldiff_spec, Z.bits_0 in H. rewrite Z.land_spec.
  destruct (Z.testbit x i), (Z.testbit mask i); cbn in *; congruence.
Qed.

(** X12. For a realized register the reset value is the register's own
    reset value OR-ed with the composite of the bitfields; it has no bit
    outside the register's own reset value and the union of the bitfield
    masks, and reset stores it as the value. *)
Theorem realize_then_reset_value (shl_ub : Z -> Z -> Z) (default : Z)
    (state st : PeripheralRegisterState) (parent : PeripheralState) :
  0 <= reset_value state < 2 ^ 64 ->
  peripheral_register_realize_callback shl_ub default state parent = Realized st ->
  exists validate_tmp,
    object_child_foreach (bitfields state)
      (peripheral_register_validate_bitfields shl_ub state) validate_tmp0
      = Done validate_tmp
    /\ reset_value st = Z.lor (reset_value state) (v_reset_value validate_tmp)
    /\ Z.ldiff (reset_value st)
               (Z.lor (reset_value state) (union_mask (bitfields state))) = 0
    /\ value (peripheral_register_reset_callback st) = reset_value st.
Proof.
  intros Hr H. unfold peripheral_register_realize_callback in H.
  destruct (object_child_foreach (bitfields state) _ validate_tmp0) as [vt| |] eqn:V;
    try discriminate H.
  destruct (object_child_foreach _ _ auto_tmp0) as [t| |]; try discriminate H.
  injection H as <-. exists vt. split; [reflexivity|].
  assert (Hm : v_mask vt = union_mask (bitfields state)).
  { pose proof (validate_walk shl_ub state (bitfields state) validate_tmp0) as W.
    rewrite V in W. destruct W as [_ [_ W]]. exact W. }
  assert (Hv : Z.ldiff (v_reset_value vt) (v_mask vt) = 0).
  { eapply validate_walk_within_mask; [|exact V]. repeat split; reflexivity. }
  assert (E : reset_value (set_auto_bits (realize_masks default state parent vt)
                             (build_auto_bits t))
              = Z.lor (reset_value state) (v_reset_value vt)).
  { change (reset_value (set_auto_bits (realize_masks default state parent vt)
                           (build_auto_bits t)))
      with (reset_value (realize_masks default state parent vt)).
    rewrite realize_masks_reset_value by exact Hr.
    rewrite (land_within _ _ Hv). reflexivity. }
  split; [exact E|]. split; [|reflexivity].
  rewrite E, <- Hm. apply Z.bits_inj'. intros i Hi.
  apply (f_equal (fun z => Z.testbit z i)) in Hv.
  rewrite Z.ldiff_spec, Z.bits_0 in Hv.
  rewrite Z.ldiff_spec, !Z.lor_spec, Z.bits_0.
  destruct (Z.testbit (reset_value state) i), (Z.testbit (v_reset_value vt) i),
    (Z.testbit (v_mask vt) i); cbn in *; congruence.
Qed.

(** A register without bitfield children always realizes, with an empty
    table: a zero mask defaults to all 64 bits when the capability is
    granted, and is forced to zero when it is not. *)
Theorem realize_without_bitfields (shl_ub : Z -> Z -> Z) (default : Z)
    (state : PeripheralRegisterState) (parent : PeripheralState) :
  bitfields state = [] ->
  0 <= reset_value state < 2 ^ 64 ->
  exists st,
    peripheral_register_realize_callback shl_ub default state parent = Realized st
    /\ auto_bits st = []
    /\ readable_bits st
       = (if is_readable state
          then if readable_bits state =? 0 then UINT64_MAX else readable_bits state
          else 0)
    /\ writable_bits st
       = (if is_writable state
          then if writable_bits state =? 0 then UINT64_MAX else writable_bits state
          else 0)
    /\ reset_value st = reset_value state
    /\ value st = value state.
Proof.
  intros Hb Hr. unfold peripheral_register_realize_callback.
  rewrite Hb. cbn [object_child_foreach].
  change (bitfields (realize_masks default state parent validate_tmp0))
    with (bitfields state). rewrite Hb. cbn [object_child_foreach].
  eexists. split; [reflexivity|]. split; [reflexivity|].
  cbn [readable_bits writable_bits reset_value value set_auto_bits realize_masks
       v_mask v_readable_bits v_writable_bits v_reset_value validate_tmp0].
  change (negb (0 =? 0)) with false. cbn iota.
  split; [|split; [|split; [|reflexivity]]].
  - destruct (is_readable state), (readable_bits state =? 0); reflexivity.
  - destruct (is_writable state), (writable_bits state =? 0); reflexivity.
  - change (Z.land 0 0) with 0. rewrite not64_0, Z.lor_0_r.
    apply wrap64_small. exact Hr.
Qed.

Lemma extract_zero (g : Z -> Z) (n : nat) :
  (forall a, 0 <= a < Z.of_nat n -> 0 <= a < 8 /\ 0 <= g a < 8) ->
  exists dst', copy_bytes host_index g (union_b 0) n 0 (union_b 0) = Done dst'
               /\ union_ll dst' = 0.
Proof.
  intros Hg. destruct (extract_loop g 0 n Hg) as [d [E [R [B1 B2]]]].
  exists d. split; [exact E|]. apply bytes_ext; [exact R|lia|].
  intros k Hk. unfold byte_of at 2. rewrite Z.shiftr_0_l, Z.land_0_l.
  destruct (Z_lt_le_dec k (Z.of_nat n)) as [L|L].
  - rewrite B1 by lia. unfold byte_of. rewrite Z.shiftr_0_l. reflexivity.
  - apply B2. lia.
Qed.

(** X13. Realize forces the mask of a capability the register lacks to
    zero, whatever the bitfields contribute: a non-writable register gets no
    writable bit, and a non-readable one reads as zero through the accessor
    and through every read that stays inside the storage. *)
Theorem disabled_capability_clears_mask (shl_ub : Z -> Z -> Z) (default : Z)
    (state st : PeripheralRegisterState) (parent periph : PeripheralState)
    (addr offset size : Z) :
  peripheral_register_realize_callback shl_ub default state parent = Realized st ->
  (is_writable state = false -> writable_bits st = 0)
  /\ (is_readable state = false ->
      readable_bits st = 0
      /\ peripheral_register_get_value st = 0
      /\ (access_in_bounds periph offset size ->
          peripheral_register_read_callback st periph addr offset size = Done 0)).
Proof.
  intros H. unfold peripheral_register_realize_callback in H.
  destruct (object_child_foreach (bitfields state) _ validate_tmp0) as [vt| |];
    try discriminate H.
  destruct (object_child_foreach _ _ auto_tmp0) as [t| |]; try discriminate H.
  injection H as <-. split.
  - intros Hw. cbn [writable_bits set_auto_bits realize_masks]. rewrite Hw. reflexivity.
  - intros Hrd.
    assert (E : readable_bits (set_auto_bits (realize_masks default state parent vt)
                                 (build_auto_bits t)) = 0).
    { cbn [readable_bits set_auto_bits realize_masks]. rewrite Hrd. reflexivity. }
    split; [exact E|]. split.
    + unfold peripheral_register_get_value. rewrite E. apply Z.land_0_r.
    + intros Hin. unfold peripheral_register_read_callback. rewrite E, Z.land_0_r.
      pose proof (in_bounds_indices periph offset size Hin) as Hg. unfold guest_index in Hg.
      destruct (is_little_endian periph);
        destruct (extract_zero _ _ Hg) as [d [Ed Ez]]; rewrite Ed; cbn [bind];
        rewrite Ez; reflexivity.
Qed.

Lemma land_lor_cover (x acc m : Z) : Z.land x acc = x -> Z.land x (Z.lor acc m) = x.
Proof.
  intros H. apply Z.bits_inj'. intros i Hi.
  apply (f_equal (fun z => Z.testbit z i)) in H.
  rewrite Z.land_spec in H. rewrite Z.land_spec, Z.lor_spec.
  destruct (Z.testbit x i), (Z.testbit acc i), (Z.testbit m i); cbn in *; congruence.
Qed.

Lemma land_lor_self (acc m : Z) : Z.land m (Z.lor acc m) = m.
Proof.
  apply Z.bits_inj'. intros i Hi. rewrite Z.land_spec, Z.lor_spec.
  destruct (Z.testbit m i), (Z.testbit acc i); reflexivity.
Qed.

(** The masks of the readable and of the writable children are inside what
    the walk collects. *)
Lemma validate_walk_covers (shl_ub : Z -> Z -> Z) (reg : PeripheralRegisterState) :
  forall children t t',
  object_child_foreach children (peripheral_register_validate_bitfields shl_ub reg) t
    = Done t' ->
  (forall x, Z.land x (v_readable_bits t) = x -> Z.land x (v_readable_bits t') = x)
  /\ (forall x, Z.land x (v_writable_bits t) = x -> Z.land x (v_writable_bits t') = x)
  /\ (forall x, Z.land x (v_mask t) = x -> Z.land x (v_mask t') = x)
  /\ (forall b, In b children ->
        Z.land (bf_mask b) (v_mask t') = bf_mask b
        /\ (bf_is_readable b = true -> Z.land (bf_mask b) (v_readable_bits t') = bf_mask b)
        /\ (bf_is_writable b = true -> Z.land (bf_mask b) (v_writable_bits t') = bf_mask b)).
Proof.
  induction children as [|c r IH]; intros t t' H; cbn [object_child_foreach] in H.
  - injection H as <-. split; [auto|]. split; [auto|]. split; [auto|]. intros b0 [].
  - destruct (peripheral_register_validate_bitfields shl_ub reg c t) as [t1| |] eqn:E;
      try discriminate H.
    cbn [bind] in H. destruct (IH t1 t' H) as [Mr [Mw [Mm Mb]]].
    unfold peripheral_register_validate_bitfields in E.
    destruct (negb _); [discriminate E|]. injection E as <-.
    cbn [v_mask v_readable_bits v_writable_bits] in *.
    split; [|split; [|split]].
    + intros x Hx. apply Mr. destruct (bf_is_readable c); [apply land_lor_cover|]; exact Hx.
    + intros x Hx. apply Mw. destruct (bf_is_writable c); [apply land_lor_cover|]; exact Hx.
    + intros x Hx. apply Mm. apply land_lor_cover. exact Hx.
    + intros b [<-|Hb]; [|apply Mb; exact Hb].
      split; [apply Mm; apply land_lor_self|]. split.
      * intros Hr. apply Mr. rewrite Hr. apply land_lor_self.
      * intros Hw. apply Mw. rewrite Hw. apply land_lor_self.
Qed.

(** X14. In a realized register that is readable (writable), the bits of
    every readable (writable) bitfield child are readable (writable). *)
Theorem realized_masks_cover_fields (shl_ub : Z -> Z -> Z) (default : Z)
    (state st : PeripheralRegisterState) (parent : PeripheralState)
    (bifi : RegisterBitfieldState) :
  peripheral_register_realize_callback shl_ub default state parent = Realized st ->
  In bifi (bitfields state) ->
  (is_readable state = true -> bf_is_readable bifi = true ->
   Z.land (bf_mask bifi) (readable_bits st) = bf_mask bifi)
  /\ (is_writable state = true -> bf_is_writable bifi = true ->
      Z.land (bf_mask bifi) (writable_bits st) = bf_mask bifi).
Proof.
  intros H Hin. unfold peripheral_register_realize_callback in H.
  destruct (object_child_foreach (bitfields state) _ validate_tmp0) as [vt| |] eqn:V;
    try discriminate H.
  destruct (object_child_foreach _ _ auto_tmp0) as [t| |]; try discriminate H.
  injection H as <-.
  destruct (validate_walk_covers _ _ _ _ _ V) as [_ [_ [_ Hc]]].
  destruct (Hc bifi Hin) as [Hm [Hr Hw]].
  assert (Z0 : v_mask vt = 0 -> bf_mask bifi = 0).
  { intros E. rewrite E, Z.land_0_r in Hm. symmetry. exact Hm. }
  cbn [readable_bits writable_bits set_auto_bits realize_masks]. split.
  - intros Sr Br. rewrite Sr. cbn [negb].
    destruct (Z.eqb_spec (v_mask vt) 0) as [E|E]; cbn [negb].
    + rewrite (Z0 E). apply Z.land_0_l.
    + rewrite Z.lor_comm. apply land_lor_cover. apply Hr. exact Br.
  - intros Sw Bw. rewrite Sw. cbn [negb].
    destruct (Z.eqb_spec (v_mask vt) 0) as [E|E]; cbn [negb].
    + rewrite (Z0 E). apply Z.land_0_l.
    + rewrite Z.lor_comm. apply land_lor_cover. apply Hw. exact Bw.
Qed.

(** ** Lookup of a relationship target *)

(** X15. The search for a name that is not null never faults, and it
    returns a child exactly when that child is the first one with the name:
    among children that share a name the first one wins. *)
Theorem find_among_children_first_match (t : string)
    (children : list RegisterBitfieldState) :
  (exists found, find_among_children (Some t) children = Done found)
  /\ forall b,
       find_among_children (Some t) children = Done (Some b)
       <-> exists pre post,
             children = pre ++ b :: post
             /\ bf_name b = t
             /\ Forall (fun c => bf_name c <> t) pre.
Proof.
  induction children as [|c r [IHd IH]];
    cbn [find_among_children peripheral_register_find_bifi bind].
  - split; [eexists; reflexivity|]. intros b. split; [discriminate|].
    intros [pre [post [H _]]]. destruct pre; discriminate H.
  - destruct (String.eqb_spec t (bf_name c)) as [E|E].
    + split; [eexists; reflexivity|]. intros b. split.
      * intros H. injection H as <-. exists [], r. repeat split; auto.
      * intros [pre [post [H [Hn Hp]]]]. destruct pre as [|p pre].
        -- injection H as ->. reflexivity.
        -- injection H as -> _. apply Forall_cons in Hp. destruct Hp as [Hp _].
           congruence.
    + split; [exact IHd|]. intros b. rewrite IH. split.
      * intros [pre [post [H [Hn Hp]]]]. exists (c :: pre), post. subst r.
        split; [reflexivity|]. split; [exact Hn|].
        constructor; [congruence|exact Hp].
      * intros [pre [post [H [Hn Hp]]]]. destruct pre as [|p pre].
        -- injection H as -> _. congruence.
        -- injection H as -> ->. apply Forall_cons in Hp. destruct Hp as [_ Hp].
           exists pre, post. repeat split; auto.
Qed.

(** ** A dangling target at realize *)

Lemma object_child_foreach_app {T : Type}
    (fn : RegisterBitfieldState -> T -> outcome T) :
  forall l1 l2 t,
  object_child_foreach (l1 ++ l2) fn t
  = bind (object_child_foreach l1 fn t) (fun t1 => object_child_foreach l2 fn t1).
Proof.
  induction l1 as [|c r IH]; intros l2 t; cbn [object_child_foreach app]; [reflexivity|].
  destruct (fn c t) as [t1| |]; cbn [bind]; [apply IH|reflexivity|reflexivity].
Qed.

Lemma create_auto_array_walk_no_relationship (reg : PeripheralRegisterState) :
  forall children t,
  Forall (fun c => follows c = None /\ cleared_by c = None /\ set_by c = None) children ->
  object_child_foreach children (peripheral_register_create_auto_array reg) t = Done t.
Proof.
  induction children as [|c r IH]; intros t H; cbn [object_child_foreach]; [reflexivity|].
  apply Forall_cons in H. destruct H as [[Hf [Hc Hs]] Hr].
  unfold peripheral_register_create_auto_array at 1. rewrite Hf, Hc, Hs. cbn [bind].
  apply IH. exact Hr.
Qed.

(** X16. When validation passes and the first child that declares a
    relationship names, in [follows] (or in [cleared_by], with no
    [follows]), a target no child has, realize rejects the register with the
    error that carries that child, the register and the missing name. *)
Theorem dangling_target_reported (shl_ub : Z -> Z -> Z) (default : Z)
    (state : PeripheralRegisterState) (parent : PeripheralState)
    (validate_tmp : PeripheralRegisterValidateTmp)
    (pre post : list RegisterBitfieldState) (bifi : RegisterBitfieldState) (t : string) :
  object_child_foreach (bitfields state)
    (peripheral_register_validate_bitfields shl_ub state) validate_tmp0
    = Done validate_tmp ->
  bitfields state = pre ++ bifi :: post ->
  Forall (fun c => follows c = None /\ cleared_by c = None /\ set_by c = None) pre ->
  Forall (fun c => bf_name c <> t) (bitfields state) ->
  (follows bifi = Some t ->
   exists st,
     peripheral_register_realize_callback shl_ub default state parent
     = Rejected (ErrFollowsMissing (bf_name bifi) (reg_name state) (Some t)) st)
  /\ (follows bifi = None -> cleared_by bifi = Some t ->
      exists st,
        peripheral_register_realize_callback shl_ub default state parent
        = Rejected (ErrClearedByMissing (bf_name bifi) (reg_name state) (Some t)) st).
Proof.
  intros V Hsplit Hpre Hn.
  unfold peripheral_register_realize_callback. rewrite V.
  set (reg := realize_masks default state parent validate_tmp).
  change (bitfields reg) with (bitfields state). rewrite Hsplit.
  rewrite object_child_foreach_app.
  rewrite (create_auto_array_walk_no_relationship reg pre auto_tmp0 Hpre).
  cbn [bind object_child_foreach].
  split.
  - intros Hf. rewrite (follows_missing_rejected reg bifi auto_tmp0 t Hf Hn).
    cbn [bind]. eexists. reflexivity.
  - intros Hf Hc. rewrite (cleared_by_missing_rejected reg bifi auto_tmp0 t Hf Hc Hn).
    cbn [bind]. eexists. reflexivity.
Qed.

(** ** Construction *)

Lemma bitfield_properties_none (RD WR size_bits : Z) (bi : RegisterBitfieldInfo) :
  bitfield_properties RD WR size_bits bi = None
  <-> 32 <= bi_first_bit bi \/ 32 <= bi_last_bit bi.
Proof.
  unfold bitfield_properties.
  destruct (Z.ltb_spec (bi_first_bit bi) 32) as [L1|L1]; cbn [negb];
    [destruct (Z.ltb_spec (bi_last_bit bi) 32) as [L2|L2]; cbn [negb]|];
    split; intros H; try discriminate H; try reflexivity; lia.
Qed.

Lemma new_bitfields_spec (RD WR : Z)
    (realize : RegisterBitfieldProperties -> RegisterBitfieldState) (size_bits : Z) :
  forall table,
  match new_bitfields RD WR realize size_bits table with
  | None => Exists (fun bi => 32 <= bi_first_bit bi \/ 32 <= bi_last_bit bi) table
  | Some children =>
      Forall (fun bi => bi_first_bit bi < 32 /\ bi_last_bit bi < 32) table
      /\ Forall2 (fun bi c => exists props,
                    bitfield_properties RD WR size_bits bi = Some props
                    /\ c = realize props) table children
  end.
Proof.
  induction table as [|bi r IH]; cbn [new_bitfields].
  - split; constructor.
  - destruct (bitfield_properties RD WR size_bits bi) as [props|] eqn:E.
    + destruct (new_bitfields RD WR realize size_bits r) as [children|].
      * destruct IH as [IH1 IH2]. split.
        -- constructor; [|exact IH1].
           destruct (Z_lt_le_dec (bi_first_bit bi) 32), (Z_lt_le_dec (bi_last_bit bi) 32);
             try lia;
             assert (N : bitfield_properties RD WR size_bits bi = None)
               by (apply bitfield_properties_none; lia); congruence.
        -- constructor; [exists props; split; [exact E|reflexivity]|exact IH2].
      * apply Exists_cons_tl. exact IH.
    + apply Exists_cons_hd. apply bitfield_properties_none in E. exact E.
Qed.

(** X18. [peripheral_register_new] aborts exactly when an entry of the
    bitfield table has a first or a last bit of 32 or more; otherwise the
    register has one child per entry, and its writable mask, its value and
    its table are those of the instance init. *)
Theorem new_aborts_on_bit_range (RD WR DEFAULT : Z)
    (realize : RegisterBitfieldProperties -> RegisterBitfieldState)
    (parent : PeripheralState) (node_name : string) (info : PeripheralRegisterInfo) :
  (peripheral_register_new RD WR DEFAULT realize parent node_name info = None
   <-> exists table,
         info_bitfields info = Some table
         /\ Exists (fun bi => 32 <= bi_first_bit bi \/ 32 <= bi_last_bit bi) table)
  /\ forall reg,
       peripheral_register_new RD WR DEFAULT realize parent node_name info = Some reg ->
       length (bitfields reg) = length (default [] (info_bitfields info))
       /\ writable_bits reg = 0 /\ value reg = 0 /\ auto_bits reg = [].
Proof.
  unfold peripheral_register_new.
  destruct (info_bitfields info) as [table|].
  - pose proof (new_bitfields_spec RD WR realize
                  (if negb (info_size_bits info =? 0) then info_size_bits info
                   else u32 (register_size_bytes parent * 8)) table) as S.
    destruct (new_bitfields _ _ _ _ table) as [children|].
    + destruct S as [S1 S2]. split.
      * split; [discriminate|]. intros [t [Ht Hex]]. injection Ht as <-.
        exfalso. apply Exists_exists in Hex. destruct Hex as [bi [Hin Hbad]].
        rewrite Forall_forall in S1. specialize (S1 bi Hin). lia.
      * intros reg H. injection H as <-. cbn.
        split; [|repeat split]. symmetry. apply (Forall2_length _ _ _ S2).
    + split.
      * split; [|reflexivity]. intros _. exists table. split; [reflexivity|exact S].
      * intros reg H. discriminate H.
  - split.
    + split; [discriminate|]. intros [t [Ht _]]. discriminate Ht.
    + intros reg H. injection H as <-. cbn. repeat split.
Qed.

(** A write to a register without writable bits and without rules commits
    the stored value. *)
Lemma write_unchanged (shl_ub shr_ub : Z -> Z -> Z) (state : PeripheralRegisterState)
    (periph : PeripheralState) (addr offset size in_val : Z) :
  writable_bits state = 0 -> auto_bits state = [] -> 0 <= value state < 2 ^ 64 ->
  access_in_bounds periph offset size ->
  peripheral_register_write_callback shl_ub shr_ub state periph addr offset size in_val
  = Done (set_value state (value state)).
Proof.
  intros Hw Hab Hv Hin.
  destruct (merged_value_in_bounds state periph offset size in_val Hin) as [nv [E _]].
  unfold peripheral_register_write_callback. rewrite E, Hab. cbn [bind run_auto_bits].
  rewrite merge_writable_none by assumption. reflexivity.
Qed.

(** X19. A register built from a definition without bitfields realizes
    with an empty table; the definition carries no writable mask, so the
    register is writable in all 64 bits or in none; reset stores the
    declared reset value; and when the mode denies writing, every write
    that stays inside the storage leaves the state as it is. *)
Theorem new_then_realize_without_bitfields (RD WR DEFAULT : Z)
    (realize : RegisterBitfieldProperties -> RegisterBitfieldState)
    (shl_ub shr_ub : Z -> Z -> Z) (default : Z)
    (parent : PeripheralState) (node_name : string) (info : PeripheralRegisterInfo) :
  info_bitfields info = None \/ info_bitfields info = Some [] ->
  0 <= info_reset_value info < 2 ^ 64 ->
  exists reg st,
    peripheral_register_new RD WR DEFAULT realize parent node_name info = Some reg
    /\ peripheral_register_realize_callback shl_ub default reg parent = Realized st
    /\ auto_bits st = []
    /\ writable_bits st = (if is_writable reg then UINT64_MAX else 0)
    /\ readable_bits st
       = (if is_readable reg
          then if info_readable_bits info =? 0 then UINT64_MAX
               else info_readable_bits info
          else 0)
    /\ value (peripheral_register_reset_callback st) = info_reset_value info
    /\ (is_writable reg = false ->
        forall periph addr offset size in_val,
        access_in_bounds periph offset size ->
        peripheral_register_write_callback shl_ub shr_ub
          (peripheral_register_reset_callback st) periph addr offset size in_val
        = Done (peripheral_register_reset_callback st)).
Proof.
  intros Hb Hr.
  assert (E : exists reg,
             peripheral_register_new RD WR DEFAULT realize parent node_name info = Some reg
             /\ bitfields reg = [] /\ writable_bits reg = 0
             /\ readable_bits reg = info_readable_bits info
             /\ reset_value reg = info_reset_value info).
  { unfold peripheral_register_new.
    destruct Hb as [-> | ->]; cbn [new_bitfields]; eexists; (split; [reflexivity|]);
      cbn [bitfields writable_bits readable_bits reset_value
           peripheral_register_instance_init_callback];
      repeat split;
      try (destruct (Z.eqb_spec (info_readable_bits info) 0) as [->|]; reflexivity);
      try (destruct (Z.eqb_spec (info_reset_value info) 0) as [->|]; reflexivity). }
  destruct E as [reg [En [Ebf [Ew [Erd Ers]]]]]. exists reg.
  rewrite <- Ers in Hr.
  destruct (realize_without_bitfields shl_ub default reg parent Ebf Hr)
    as [st [R [Hab [Hrd [Hw [Hrs Hv]]]]]].
  exists st. rewrite Ew in Hw. rewrite Erd in Hrd. change (0 =? 0) with true in Hw.
  split; [exact En|]. split; [exact R|]. split; [exact Hab|].
  split; [exact Hw|]. split; [exact Hrd|].
  split; [cbn [value peripheral_register_reset_callback set_value]; congruence|].
  intros Hnw periph addr offset size in_val Hin.
  rewrite Hnw in Hw.
  apply (write_unchanged shl_ub shr_ub (peripheral_register_reset_callback st));
    [exact Hw|exact Hab| |exact Hin].
  cbn [value peripheral_register_reset_callback set_value]. rewrite Hrs. exact Hr.
Qed.

(** X20. The state of a derived register type after the two instance
    inits takes offset, reset value, value, readable mask and width from the
    type definition, but never its writable mask, which is tested on the
    state and stays zero; realize then makes the register writable in all
    64 bits or in none. *)
Theorem derived_type_then_realize (RD WR DEFAULT : Z) (shl_ub shr_ub : Z -> Z -> Z)
    (default : Z) (parent : PeripheralState) (ti : PeripheralRegisterTypeInfo) :
  0 <= ti_reset_value ti < 2 ^ 64 ->
  let klass :=
    derived_peripheral_register_class_init_callback
      (inherited_class (peripheral_register_class_init shl_ub shr_ub)) ti in
  let state :=
    derived_peripheral_register_instance_init_callback RD WR klass
      (peripheral_register_instance_init_callback DEFAULT) in
  offset_bytes state = ti_offset_bytes ti
  /\ reset_value state = ti_reset_value ti
  /\ value state = ti_reset_value ti
  /\ readable_bits state = ti_readable_bits ti
  /\ writable_bits state = 0
  /\ size_bits state = ti_size_bits ti
  /\ exists st,
       peripheral_register_realize_callback shl_ub default state parent = Realized st
       /\ auto_bits st = []
       /\ writable_bits st = (if is_writable state then UINT64_MAX else 0)
       /\ value st = ti_reset_value ti.
Proof.
  intros Hr klass state.
  assert (Erd : readable_bits state = ti_readable_bits ti).
  { cbn. destruct (Z.eqb_spec (ti_readable_bits ti) 0) as [->|]; reflexivity. }
  assert (Esz : size_bits state = ti_size_bits ti).
  { cbn. destruct (Z.eqb_spec (ti_size_bits ti) 0) as [->|]; reflexivity. }
  split; [reflexivity|]. split; [reflexivity|]. split; [reflexivity|].
  split; [exact Erd|]. split; [reflexivity|]. split; [exact Esz|].
  destruct (realize_without_bitfields shl_ub default state parent eq_refl Hr)
    as [st [R [Hab [_ [Hw [_ Hv]]]]]].
  exists st. split; [exact R|]. split; [exact Hab|]. split; [exact Hw|exact Hv].
Qed.

(** ** The further properties at concrete inputs *)

Lemma write_little_endian_bytes_witness :
  exists new_value,
    peripheral_register_write_callback hw_shl hw_shr word_reg le_periph 0 1 2 0xAABB
      = Done (set_value word_reg (merge_writable word_reg new_value))
    /\ 0 <= new_value < 2 ^ 64
    /\ forall k, 0 <= k < 8 ->
         byte_of new_value k
         = if (1 <=? k) && (k <? 1 + 2)
           then byte_of 0xAABB (k - 1) else byte_of (value word_reg) k.
Proof.
  apply (write_little_endian_bytes hw_shl hw_shr word_reg le_periph 0 1 2 0xAABB);
    (reflexivity || lia).
Defined.

Lemma read_little_endian_bytes_witness :
  exists result,
    peripheral_register_read_callback word_reg le_periph 0 1 2 = Done result
    /\ 0 <= result < 2 ^ 64
    /\ forall k, 0 <= k < 8 ->
         byte_of result k
         = if k <? 2
           then byte_of (peripheral_register_get_value word_reg) (k + 1) else 0.
Proof.
  apply (read_little_endian_bytes word_reg le_periph 0 1 2); (reflexivity || lia).
Defined.

Lemma big_endian_guest_bytes_witness :
  (auto_bits word_reg = [] ->
   exists new_value,
     peripheral_register_write_callback hw_shl hw_shr word_reg be_periph 0 1 2 0xAABB
       = Done (set_value word_reg (merge_writable word_reg new_value))
     /\ 0 <= new_value < 2 ^ 64
     /\ forall k, 0 <= k < 8 ->
          byte_of new_value k
          = if (8 - 1 - 2 <? k) && (k <=? 8 - 1)
            then byte_of 0xAABB (8 - 1 - k) else byte_of (value word_reg) k)
  /\ exists result,
       peripheral_register_read_callback word_reg be_periph 0 1 2 = Done result
       /\ 0 <= result < 2 ^ 64
       /\ forall k, 0 <= k < 8 ->
            byte_of result k
            = if k <? 2
              then byte_of (peripheral_register_get_value word_reg) (8 - (k + 1))
              else 0.
Proof.
  apply (big_endian_guest_bytes hw_shl hw_shr word_reg be_periph 0 1 2 0xAABB);
    (reflexivity || lia).
Defined.

Lemma write_then_read_round_trip_witness :
  exists state',
    peripheral_register_write_callback hw_shl hw_shr word_reg be_periph 0 1 8
      0x0102030405060708 = Done state'
    /\ peripheral_register_read_callback state' be_periph 0 1 8
       = Done (Z.land 0x0102030405060708 (Z.ones (8 * 8))).
Proof.
  apply (write_then_read_round_trip hw_shl hw_shr word_reg be_periph 0 1 8);
    try reflexivity.
  unfold access_in_bounds. cbn. lia.
Defined.

Lemma access_faults_exactly_out_of_bounds_witness :
  peripheral_register_read_callback word_reg le_periph 0 7 2 = Fault OutOfBounds
  /\ peripheral_register_write_callback hw_shl hw_shr word_reg le_periph 0 7 2 0xAABB
     = Fault OutOfBounds.
Proof.
  apply (proj2 (access_faults_exactly_out_of_bounds hw_shl hw_shr word_reg le_periph
                  0 7 2 0xAABB ltac:(cbn; lia) ltac:(lia))).
  unfold access_in_bounds. cbn. lia.
Defined.

Lemma write_preserves_non_writable_bits_witness :
  exists v',
    peripheral_register_write_callback hw_shl hw_shr low_half_reg le_periph 0 0 4
      0xAABBCCDD = Done (set_value low_half_reg v')
    /\ Z.ldiff v' (writable_bits low_half_reg)
       = Z.ldiff (value low_half_reg) (writable_bits low_half_reg).
Proof.
  apply (write_preserves_non_writable_bits hw_shl hw_shr low_half_reg le_periph 0 0 4).
  - reflexivity.
  - cbn. lia.
  - unfold access_in_bounds. cbn. lia.
Defined.

Lemma follows_left_shift_mirrors_witness :
  let tmp' := apply_auto_bits hw_shl hw_shr
                {| ab_mask := 0x0F; ab_shift := 4;
                   ab_type := PERIPHERAL_REGISTER_AUTO_BITS_TYPE_FOLLOWS |} 0x3A in
  Z.land (Z.shiftr tmp' 4) 0x0F = Z.land 0x3A 0x0F
  /\ Z.land tmp' 0x0F = Z.land 0x3A 0x0F.
Proof.
  apply (follows_left_shift_mirrors hw_shl hw_shr 0x0F 4 0x3A).
  - lia.
  - vm_compute. split; [discriminate|reflexivity].
  - vm_compute. split; [discriminate|reflexivity].
  - reflexivity.
Defined.

Lemma cleared_by_left_shift_bitwise_witness :
  Z.testbit (apply_auto_bits hw_shl hw_shr
               {| ab_mask := 0x0F; ab_shift := 4;
                  ab_type := PERIPHERAL_REGISTER_AUTO_BITS_TYPE_CLEARED_BY |} 0xF1) 4
  = Z.testbit 0xF1 4 && negb (Z.testbit 0xF1 (4 - 4) && Z.testbit 0x0F (4 - 4)).
Proof.
  apply (cleared_by_left_shift_bitwise hw_shl hw_shr 0x0F 4 0xF1 4).
  - lia.
  - vm_compute. split; [discriminate|reflexivity].
  - lia.
Defined.

Lemma set_by_left_shift_bitwise_witness :
  Z.testbit (apply_auto_bits hw_shl hw_shr
               {| ab_mask := 0x0F; ab_shift := 4;
                  ab_type := PERIPHERAL_REGISTER_AUTO_BITS_TYPE_SET_BY |} 0x01) 4
  = Z.testbit 0x01 4
    || (Z.testbit 0x01 (4 - 4) && Z.testbit 0x0F (4 - 4) && (4 <? 64)).
Proof.
  apply (set_by_left_shift_bitwise hw_shl hw_shr 0x0F 4 0x01 4); lia.
Defined.

Lemma compiled_table_entries_witness :
  Forall (fun a => ab_mask a <> 0 /\ ab_shift a <> 0 /\ -63 <= ab_shift a <= 63)
         (auto_bits follows_up_live)
  /\ forall tmp,
       run_auto_bits hw_shl hw_shr (auto_bits follows_up_live) tmp
       = fold_left (fun t a => apply_auto_bits hw_shl hw_shr a t)
           (auto_bits follows_up_live) tmp.
Proof.
  apply (compiled_table_entries hw_shl hw_shr 32 follows_up_reg follows_up_live le_periph).
  reflexivity.
Defined.

Lemma validation_collects_within_mask_witness :
  v_mask {| v_mask := 0xFF; v_readable_bits := 0xFF; v_writable_bits := 0xFF;
            v_reset_value := 0x0A |}
  = union_mask (bitfields readonly_follows_reg)
  /\ Z.ldiff 0xFF 0xFF = 0 /\ Z.ldiff 0xFF 0xFF = 0 /\ Z.ldiff 0x0A 0xFF = 0.
Proof.
  apply (validation_collects_within_mask hw_shl readonly_follows_reg
           (bitfields readonly_follows_reg)
           {| v_mask := 0xFF; v_readable_bits := 0xFF; v_writable_bits := 0xFF;
              v_reset_value := 0x0A |}).
  reflexivity.
Defined.

Lemma realize_then_reset_value_witness :
  exists validate_tmp,
    object_child_foreach (bitfields reset_overlay_reg)
      (peripheral_register_validate_bitfields hw_shl reset_overlay_reg) validate_tmp0
      = Done validate_tmp
    /\ reset_value reset_overlay_live
       = Z.lor (reset_value reset_overlay_reg) (v_reset_value validate_tmp)
    /\ Z.ldiff (reset_value reset_overlay_live)
               (Z.lor (reset_value reset_overlay_reg)
                      (union_mask (bitfields reset_overlay_reg))) = 0
    /\ value (peripheral_register_reset_callback reset_overlay_live)
       = reset_value reset_overlay_live.
Proof.
  apply (realize_then_reset_value hw_shl 32 reset_overlay_reg reset_overlay_live le_periph).
  - cbn. lia.
  - reflexivity.
Defined.

Lemma disabled_capability_clears_mask_witness :
  (is_writable readonly_follows_reg = false ->
   writable_bits readonly_follows_realized = 0)
  /\ (is_readable readonly_follows_reg = false ->
      readable_bits readonly_follows_realized = 0
      /\ peripheral_register_get_value readonly_follows_realized = 0
      /\ (access_in_bounds le_periph 0 1 ->
          peripheral_register_read_callback readonly_follows_realized le_periph 0 0 1
          = Done 0)).
Proof.
  apply (disabled_capability_clears_mask hw_shl 32 readonly_follows_reg
           readonly_follows_realized le_periph le_periph 0 0 1).
  reflexivity.
Defined.

Lemma realized_masks_cover_fields_witness :
  (is_readable follows_up_reg = true ->
   bf_is_readable (register_bitfield "A" 0 3 0 true true None None None) = true ->
   Z.land (bf_mask (register_bitfield "A" 0 3 0 true true None None None))
          (readable_bits follows_up_live)
   = bf_mask (register_bitfield "A" 0 3 0 true true None None None))
  /\ (is_writable follows_up_reg = true ->
      bf_is_writable (register_bitfield "A" 0 3 0 true true None None None) = true ->
      Z.land (bf_mask (register_bitfield "A" 0 3 0 true true None None None))
             (writable_bits follows_up_live)
      = bf_mask (register_bitfield "A" 0 3 0 true true None None None)).
Proof.
  apply (realized_masks_cover_fields hw_shl 32 follows_up_reg follows_up_live le_periph).
  - reflexivity.
  - left. reflexivity.
Defined.

Lemma dangling_target_reported_witness :
  (follows (register_bitfield "B" 0 3 0 true true (Some "nowhere"%string) None None)
   = Some "nowhere"%string ->
   exists st,
     peripheral_register_realize_callback hw_shl 32 follows_missing_reg le_periph
     = Rejected (ErrFollowsMissing
                   (bf_name (register_bitfield "B" 0 3 0 true true
                               (Some "nowhere"%string) None None))
                   (reg_name follows_missing_reg) (Some "nowhere"%string)) st)
  /\ (follows (register_bitfield "B" 0 3 0 true true (Some "nowhere"%string) None None)
      = None ->
      cleared_by (register_bitfield "B" 0 3 0 true true (Some "nowhere"%string) None None)
      = Some "nowhere"%string ->
      exists st,
        peripheral_register_realize_callback hw_shl 32 follows_missing_reg le_periph
        = Rejected (ErrClearedByMissing
                      (bf_name (register_bitfield "B" 0 3 0 true true
                                  (Some "nowhere"%string) None None))
                      (reg_name follows_missing_reg) (Some "nowhere"%string)) st).
Proof.
  eapply (dangling_target_reported hw_shl 32 follows_missing_reg le_periph _ [] []).
  - reflexivity.
  - reflexivity.
  - constructor.
  - repeat constructor. discriminate.
Defined.

Lemma dangling_target_never_realized_witness :
  match peripheral_register_realize_callback hw_shl 32 follows_missing_reg le_periph with
  | Realized _ => False
  | _ => True
  end.
Proof.
  assert (H : forall st,
             peripheral_register_realize_callback hw_shl 32 follows_missing_reg le_periph
             <> Realized st).
  { apply (dangling_target_never_realized hw_shl 32 follows_missing_reg le_periph
             (register_bitfield "B" 0 3 0 true true (Some "nowhere"%string) None None)
             "nowhere").
    - left. reflexivity.
    - left. reflexivity.
    - repeat constructor. discriminate. }
  destruct (peripheral_register_realize_callback hw_shl 32 follows_missing_reg le_periph)
    as [st|e st|f]; [exact (H st eq_refl)|exact I|exact I].
Defined.

Lemma new_aborts_on_bit_range_witness :
  sample_new le_periph "R" bad_range_info = None.
Proof.
  apply (proj1 (new_aborts_on_bit_range 1 2 0 sample_bitfield_realize le_periph "R"
                  bad_range_info)).
  eexists. split; [reflexivity|].
  apply Exists_cons_tl. apply Exists_cons_hd. left. cbn. lia.
Defined.

Lemma new_then_realize_without_bitfields_witness :
  exists reg st,
    peripheral_register_new 1 2 0 sample_bitfield_realize le_periph "R" read_only_info
      = Some reg
    /\ peripheral_register_realize_callback hw_shl 32 reg le_periph = Realized st
    /\ auto_bits st = []
    /\ writable_bits st = (if is_writable reg then UINT64_MAX else 0)
    /\ readable_bits st
       = (if is_readable reg
          then if info_readable_bits read_only_info =? 0 then UINT64_MAX
               else info_readable_bits read_only_info
          else 0)
    /\ value (peripheral_register_reset_callback st) = info_reset_value read_only_info
    /\ (is_writable reg = false ->
        forall periph addr offset size in_val,
        access_in_bounds periph offset size ->
        peripheral_register_write_callback hw_shl hw_shr
          (peripheral_register_reset_callback st) periph addr offset size in_val
        = Done (peripheral_register_reset_callback st)).
Proof.
  apply (new_then_realize_without_bitfields 1 2 0 sample_bitfield_realize
           hw_shl hw_shr 32 le_periph "R" read_only_info).
  - left. reflexivity.
  - cbn. lia.
Defined.

Lemma derived_type_then_realize_witness :
  let klass :=
    derived_peripheral_register_class_init_callback
      (inherited_class (peripheral_register_class_init hw_shl hw_shr)) sample_type_info in
  let state :=
    derived_peripheral_register_instance_init_callback 1 2 klass
      (peripheral_register_instance_init_callback 0) in
  offset_bytes state = ti_offset_bytes sample_type_info
  /\ reset_value state = ti_reset_value sample_type_info
  /\ value state = ti_reset_value sample_type_info
  /\ readable_bits state = ti_readable_bits sample_type_info
  /\ writable_bits state = 0
  /\ size_bits state = ti_size_bits sample_type_info
  /\ exists st,
       peripheral_register_realize_callback hw_shl 32 state le_periph = Realized st
       /\ auto_bits st = []
       /\ writable_bits st = (if is_writable state then UINT64_MAX else 0)
       /\ value st = ti_reset_value sample_type_info.
Proof.
  apply (derived_type_then_realize 1 2 0 hw_shl hw_shr 32 le_periph sample_type_info).
  cbn. lia.
Defined.

Lemma distinct_fields_at_distance_zero_rejected_witness :
  exists pre b post state',
    bitfields distance_zero_pair_reg = pre ++ b :: post
    /\ peripheral_register_realize_callback hw_shl 32 distance_zero_pair_reg le_periph
       = Rejected (ErrOverlap (bf_name b) (reg_name distance_zero_pair_reg)) state'.
Proof.
  apply (distinct_fields_at_distance_zero_rejected hw_shl 32 distance_zero_pair_reg
           le_periph 0 1
           (register_bitfield "C" 0 3 0 true true None (Some "D"%string) None)
           (register_bitfield "D" 0 3 0 true true None None None)).
  - discriminate.
  - reflexivity.
  - reflexivity.
  - cbn. lia.
  - reflexivity.
  - reflexivity.
  - reflexivity.
Defined.
